(** * Hohmann transfer kinematics: Earth, Mars and the rocket

    A shallow embedding of the two scripts [Hohmann_Rocket_Sim.py] and
    [Hohmann_rocket_angle_updated.py].

    Number model.  The scripts compute with numpy [float64] values.  Here a
    [float64] is idealised as a real number: [+], [-], [*], [/], [**],
    [np.sqrt], [np.cos], [np.sin] and [np.arctan2] are the exact operations on
    [R], and rounding, overflow and NaN are not modelled.  Every statement
    below is a statement about this real-number reading of the scripts, with
    one exception: module [Float64] evaluates the two forms of [x_transfer]
    with the exact IEEE binary64 operations, to compare them bit for bit.

    Array model.  A one-dimensional [ndarray] is a [list R].  Operations
    between an array and a scalar map over the array; operations between two
    arrays follow numpy's broadcasting rule for one-dimensional shapes and may
    raise [ValueError]; indexing may raise [IndexError]; [np.argmin] of an
    empty array raises [ValueError]. *)

From Stdlib Require PrimFloat.
From Stdlib Require Import Reals Lra Lia List Arith Bool.
Import ListNotations.
Open Scope R_scope.

(** ** Exceptions and results *)

Inductive exn : Type :=
| ValueError_broadcast (n m : nat)   (* operands could not be broadcast together *)
| ValueError_empty_argmin            (* attempt to get argmin of an empty sequence *)
| IndexError (i n : nat).            (* index i is out of bounds for size n *)

Inductive result (A : Type) : Type :=
| Ok (a : A)
| Raise (e : exn).

Arguments Ok {A} a.
Arguments Raise {A} e.

Definition bind {A B : Type} (r : result A) (k : A -> result B) : result B :=
  match r with
  | Ok a => k a
  | Raise e => Raise e
  end.

Notation "x <- e ;; k" := (bind e (fun x => k))
  (at level 61, e at next level, right associativity).

Definition is_ok {A : Type} (r : result A) : Prop :=
  match r with Ok _ => True | Raise _ => False end.

(** ** The numpy operations the scripts use *)

Definition ndarray : Type := list R.

(** [c * a], [a + c], [a - c], [a ** n] for a scalar [c] and an array [a]. *)
Definition scalar_mul (c : R) (a : ndarray) : ndarray := map (fun x => c * x) a.
Definition add_scalar (a : ndarray) (c : R) : ndarray := map (fun x => x + c) a.
Definition sub_scalar (a : ndarray) (c : R) : ndarray := map (fun x => x - c) a.
Definition power (a : ndarray) (n : nat) : ndarray := map (fun x => x ^ n) a.

Definition np_cos (a : ndarray) : ndarray := map cos a.
Definition np_sin (a : ndarray) : ndarray := map sin a.
Definition np_sqrt (a : ndarray) : ndarray := map sqrt a.

(** [np.deg2rad(x)] is [x * (pi / 180)]. *)
Definition np_deg2rad (x : R) : R := x * (PI / 180).

(** [np.linspace(start, stop, num)]: sample [i] is [i * step + start] with
    [step = (stop - start) / (num - 1)]. *)
Definition np_linspace (start stop : R) (num : nat) : ndarray :=
  map (fun i => INR i * ((stop - start) / INR (num - 1)) + start) (seq 0 num).

(** Element-wise binary operation on two one-dimensional arrays.  Shapes
    [(n,)] and [(m,)] are compatible when [n = m] or one of them is [1]. *)
Definition zip_with (f : R -> R -> R) (a b : ndarray) : ndarray :=
  map (fun p => f (fst p) (snd p)) (combine a b).

Definition broadcast (f : R -> R -> R) (a b : ndarray) : result ndarray :=
  if Nat.eqb (length a) (length b) then Ok (zip_with f a b)
  else match a, b with
       | [x], _ => Ok (map (fun y => f x y) b)
       | _, [y] => Ok (map (fun x => f x y) a)
       | _, _ => Raise (ValueError_broadcast (length a) (length b))
       end.

Definition np_add : ndarray -> ndarray -> result ndarray := broadcast Rplus.
Definition np_subtract : ndarray -> ndarray -> result ndarray := broadcast Rminus.

(** [a[i]] for a non-negative index. *)
Definition getitem (a : ndarray) (i : nat) : result R :=
  match nth_error a i with
  | Some x => Ok x
  | None => Raise (IndexError i (length a))
  end.

(** [np.argmin]: one pass keeping the smallest value seen so far and its
    index; the index changes only on a strictly smaller value. *)
Fixpoint argmin_from (mp : R) (min_ind : nat) (i : nat) (ip : list R) : nat :=
  match ip with
  | [] => min_ind
  | x :: rest =>
      if Rlt_dec x mp then argmin_from x i (S i) rest
      else argmin_from mp min_ind (S i) rest
  end.

Definition np_argmin (a : ndarray) : result nat :=
  match a with
  | [] => Raise ValueError_empty_argmin
  | x :: rest => Ok (argmin_from x 0%nat 1%nat rest)
  end.

(** [np.arctan2(y, x)]: the angle of the point [(x, y)], in (-pi, pi] for
    real arguments (the float64 function can also round to -pi). *)
Definition arctan2 (y x : R) : R :=
  if Rlt_dec 0 x then atan (y / x)
  else if Rlt_dec x 0 then
         (if Rle_dec 0 y then atan (y / x) + PI else atan (y / x) - PI)
  else if Rlt_dec 0 y then PI / 2
  else if Rlt_dec y 0 then - (PI / 2)
  else 0.

Definition np_arctan2 (ys xs : ndarray) : result ndarray :=
  broadcast arctan2 ys xs.

(** ** The kinematics, as the scripts compute it *)

(** Gravitational constant, in m^3 kg^-1 s^-2. *)
Definition G : R := 6.67430e-11.

(** [T = 2 * np.pi * np.sqrt(r**3 / (G * M))] *)
Definition orbit_period (r M : R) : R := 2 * PI * sqrt (r ^ 3 / (G * M)).

(** [a_transfer = (r_earth_orbit + r_mars_orbit) / 2] *)
Definition semi_major_axis (r_inner r_outer : R) : R := (r_inner + r_outer) / 2.

(** [theta = (2 * np.pi / T) * t + phase], [x = r * np.cos(theta)],
    [y = r * np.sin(theta)]. *)
Definition orbit_theta (T phase : R) (t : ndarray) : ndarray :=
  add_scalar (scalar_mul (2 * PI / T) t) phase.
Definition orbit_x (r T phase : R) (t : ndarray) : ndarray :=
  scalar_mul r (np_cos (orbit_theta T phase t)).
Definition orbit_y (r T phase : R) (t : ndarray) : ndarray :=
  scalar_mul r (np_sin (orbit_theta T phase t)).

(** [theta_transfer = np.sqrt((G * M_sun) / a_transfer**3) * t] *)
Definition transfer_theta (a M : R) (t : ndarray) : ndarray :=
  scalar_mul (sqrt ((G * M) / a ^ 3)) t.

(** [x_transfer = a_transfer * (np.cos(theta_transfer) - 1)]
    (Hohmann_Rocket_Sim.py) *)
Definition transfer_x_sim (a : R) (theta : ndarray) : ndarray :=
  scalar_mul a (sub_scalar (np_cos theta) 1).

(** [x_transfer = a_transfer * np.cos(theta_transfer) - a_transfer]
    (Hohmann_rocket_angle_updated.py) *)
Definition transfer_x_updated (a : R) (theta : ndarray) : ndarray :=
  sub_scalar (scalar_mul a (np_cos theta)) a.

(** [y_transfer = a_transfer * np.sin(theta_transfer)] (both scripts) *)
Definition transfer_y (a : R) (theta : ndarray) : ndarray :=
  scalar_mul a (np_sin theta).

(** [np.sqrt((tx - mx)**2 + (ty - my)**2)]: the per-sample distance between a
    transfer series already in the shared frame and the target series. *)
Definition separation (tx ty mx my : ndarray) : result ndarray :=
  dx <- np_subtract tx mx ;;
  dy <- np_subtract ty my ;;
  s <- np_add (power dx 2) (power dy 2) ;;
  Ok (np_sqrt s).

(** The closest-approach search on shared-frame series: [np.argmin] of the
    separation. *)
Definition find_closest_approach (tx ty mx my : ndarray) : result nat :=
  d <- separation tx ty mx my ;;
  np_argmin d.

(** [distances_to_mars = np.sqrt((x_transfer + x_earth[0] - x_mars)**2
                                + (y_transfer + y_earth[0] - y_mars)**2)] *)
Definition distances_to_mars_of
    (x_transfer y_transfer x_earth y_earth x_mars y_mars : ndarray)
    : result ndarray :=
  xe0 <- getitem x_earth 0 ;;
  dx <- np_subtract (add_scalar x_transfer xe0) x_mars ;;
  ye0 <- getitem y_earth 0 ;;
  dy <- np_subtract (add_scalar y_transfer ye0) y_mars ;;
  s <- np_add (power dx 2) (power dy 2) ;;
  Ok (np_sqrt s).

(** [intercept_idx = np.argmin(distances_to_mars)] *)
Definition intercept_idx_of
    (x_transfer y_transfer x_earth y_earth x_mars y_mars : ndarray)
    : result nat :=
  d <- distances_to_mars_of x_transfer y_transfer x_earth y_earth x_mars y_mars ;;
  np_argmin d.

(** ** The animation callback and the plotted series *)

(** What one call of [animate] hands to the plot objects. *)
Record artists : Type := {
  rocket : R * R;
  earth : R * R;
  mars : R * R
}.

Record telemetry : Type := {
  bodies : artists;
  line : list R * list R;
  angle : R;       (* shown as [f'Angle: {angle:.2f}'] *)
  distance : R     (* shown as [f'Distance: {distance:.2e} m'] *)
}.

Section Frames.

Variables x_transfer y_transfer x_earth y_earth x_mars y_mars : ndarray.

(** The branch of [animate] that places the rocket:
    [if i < intercept_idx: transfer arc moved to Earth's first position;
     else: Mars]. *)
Definition rocket_position (intercept_idx i : nat) : result (R * R) :=
  if Nat.ltb i intercept_idx then
    xt <- getitem x_transfer i ;;
    xe0 <- getitem x_earth 0 ;;
    yt <- getitem y_transfer i ;;
    ye0 <- getitem y_earth 0 ;;
    Ok (xt + xe0, yt + ye0)
  else
    xm <- getitem x_mars i ;;
    ym <- getitem y_mars i ;;
    Ok (xm, ym).

(** [animate(i)] of Hohmann_Rocket_Sim.py. *)
Definition animate_sim_of (intercept_idx i : nat) : result artists :=
  r <- rocket_position intercept_idx i ;;
  xe <- getitem x_earth i ;;
  ye <- getitem y_earth i ;;
  xm <- getitem x_mars i ;;
  ym <- getitem y_mars i ;;
  Ok {| rocket := r; earth := (xe, ye); mars := (xm, ym) |}.

(** [animate(i)] of Hohmann_rocket_angle_updated.py. *)
Definition animate_updated_of (intercept_idx i : nat) : result telemetry :=
  r <- rocket_position intercept_idx i ;;
  let rocket_x := fst r in
  let rocket_y := snd r in
  xe <- getitem x_earth i ;;
  ye <- getitem y_earth i ;;
  xm <- getitem x_mars i ;;
  ym <- getitem y_mars i ;;
  xe' <- getitem x_earth i ;;
  ye' <- getitem y_earth i ;;
  xe'' <- getitem x_earth i ;;
  let dx := rocket_x - xe'' in
  ye'' <- getitem y_earth i ;;
  let dy := rocket_y - ye'' in
  Ok {| bodies := {| rocket := r; earth := (xe, ye); mars := (xm, ym) |};
        line := ([xe'; rocket_x], [ye'; rocket_y]);
        angle := arctan2 dy dx * (180 / PI);
        distance := sqrt (dx ^ 2 + dy ^ 2) |}.

(** [angles = np.arctan2(y_transfer + y_earth[0] - y_earth,
                         x_transfer + x_earth[0] - x_earth) * (180 / np.pi)] *)
Definition angles_of : result ndarray :=
  ye0 <- getitem y_earth 0 ;;
  dy <- np_subtract (add_scalar y_transfer ye0) y_earth ;;
  xe0 <- getitem x_earth 0 ;;
  dx <- np_subtract (add_scalar x_transfer xe0) x_earth ;;
  a <- np_arctan2 dy dx ;;
  Ok (map (fun v => v * (180 / PI)) a).




End Frames.

(** ** The two scripts *)

(** Lines shared by both scripts. *)
Definition M_sun : R := 1.989e30.
Definition r_earth_orbit : R := 1.496e11.
Definition r_mars_orbit : R := 2.279e11.
Definition T_earth : R := orbit_period r_earth_orbit M_sun.
Definition T_mars : R := orbit_period r_mars_orbit M_sun.
Definition a_transfer : R := semi_major_axis r_earth_orbit r_mars_orbit.
Definition t : ndarray := np_linspace 0 T_mars 1000.
Definition theta_earth : ndarray := scalar_mul (2 * PI / T_earth) t.
Definition x_earth : ndarray := scalar_mul r_earth_orbit (np_cos theta_earth).
Definition y_earth : ndarray := scalar_mul r_earth_orbit (np_sin theta_earth).
Definition theta_transfer : ndarray := transfer_theta a_transfer M_sun t.
Definition y_transfer : ndarray := transfer_y a_transfer theta_transfer.

Module Hohmann_Rocket_Sim.

(** [theta_mars = (2 * np.pi / T_mars) * t + 44.75]: the offset is added as
    it stands, in radians. *)
Definition theta_mars : ndarray := orbit_theta T_mars 44.75 t.
Definition x_mars : ndarray := scalar_mul r_mars_orbit (np_cos theta_mars).
Definition y_mars : ndarray := scalar_mul r_mars_orbit (np_sin theta_mars).
Definition x_transfer : ndarray := transfer_x_sim a_transfer theta_transfer.
Definition distances_to_mars : result ndarray :=
  distances_to_mars_of x_transfer y_transfer x_earth y_earth x_mars y_mars.
Definition intercept_idx : result nat :=
  intercept_idx_of x_transfer y_transfer x_earth y_earth x_mars y_mars.
Definition animate (i : nat) : result artists :=
  k <- intercept_idx ;;
  animate_sim_of x_transfer y_transfer x_earth y_earth x_mars y_mars k i.

End Hohmann_Rocket_Sim.

Module Hohmann_rocket_angle_updated.

(** [theta_mars = (2 * np.pi / T_mars) * t + np.deg2rad(44.75)] *)
Definition theta_mars : ndarray := orbit_theta T_mars (np_deg2rad 44.75) t.
Definition x_mars : ndarray := scalar_mul r_mars_orbit (np_cos theta_mars).
Definition y_mars : ndarray := scalar_mul r_mars_orbit (np_sin theta_mars).
Definition x_transfer : ndarray := transfer_x_updated a_transfer theta_transfer.
Definition distances_to_mars : result ndarray :=
  distances_to_mars_of x_transfer y_transfer x_earth y_earth x_mars y_mars.
Definition intercept_idx : result nat :=
  intercept_idx_of x_transfer y_transfer x_earth y_earth x_mars y_mars.
Definition animate (i : nat) : result telemetry :=
  k <- intercept_idx ;;
  animate_updated_of x_transfer y_transfer x_earth y_earth x_mars y_mars k i.
Definition angles : result ndarray :=
  angles_of x_transfer y_transfer x_earth y_earth.

End Hohmann_rocket_angle_updated.

(** ** Specification vocabulary *)

(** [k] is the first position of a smallest element of [a]. *)
Definition first_minimum (a : ndarray) (k : nat) : Prop :=
  exists v,
    nth_error a k = Some v
    /\ (forall j x, nth_error a j = Some x -> v <= x)
    /\ (forall j x, (j < k)%nat -> nth_error a j = Some x -> v < x).

(** The distance between sample [i] of two series. *)
Definition separation_at (tx ty mx my : ndarray) (i : nat) : R :=
  sqrt ((nth i tx 0 - nth i mx 0) ^ 2 + (nth i ty 0 - nth i my 0) ^ 2).

(** The rocket's position as a total function of the frame index: what
    [rocket_position] returns whenever it does not raise. *)
Definition rocket_at (xt yt xe ye xm ym : ndarray) (k i : nat) : R * R :=
  if Nat.ltb i k then (nth i xt 0 + nth 0 xe 0, nth i yt 0 + nth 0 ye 0)
  else (nth i xm 0, nth i ym 0).

(** The distance from the translated transfer arc to Mars at sample [i]. *)
Definition distance_to_mars_at (xt yt xe ye xm ym : ndarray) (i : nat) : R :=
  sqrt ((nth i xt 0 + nth 0 xe 0 - nth i xm 0) ^ 2
        + (nth i yt 0 + nth 0 ye 0 - nth i ym 0) ^ 2).

(** The ratio of the transfer arc's angular rate to Mars's mean motion,
    [sqrt(G M / a^3) * T_mars / (2 pi)], with [G M] cancelled. *)
Definition sigma : R := sqrt (r_mars_orbit ^ 3 / a_transfer ^ 3).

(** The ratio of Mars's period to Earth's, [T_mars / T_earth], with [G M]
    cancelled. *)
Definition rho : R := sqrt (r_mars_orbit ^ 3 / r_earth_orbit ^ 3).

(** The distance between the rocket on the translated transfer arc at angle
    [theta_t] and Mars at angle [theta_m]. *)
Definition arc_to_mars (theta_t theta_m : R) : R :=
  sqrt ((a_transfer * cos theta_t - a_transfer + r_earth_orbit
         - r_mars_orbit * cos theta_m) ^ 2
        + (a_transfer * sin theta_t - r_mars_orbit * sin theta_m) ^ 2).

(** ** The two forms of [x_transfer] in float64 *)

(** One sample of the two [x_transfer] lines with the binary64 operations the
    scripts run: [*] and [-] are correctly rounded, and the value [c] of
    [np.cos(theta_transfer[i])] is an argument, since the cosine is a library
    value. *)
Module Float64.

Import PrimFloat.

Definition r_earth_orbit : float := 1.496e11%float.
Definition r_mars_orbit : float := 2.279e11%float.

(** [a_transfer = (r_earth_orbit + r_mars_orbit) / 2] *)
Definition a_transfer : float := ((r_earth_orbit + r_mars_orbit) / 2)%float.

(** [a_transfer * (np.cos(theta_transfer) - 1)] (Hohmann_Rocket_Sim.py) *)
Definition x_transfer_sim (a c : float) : float := (a * (c - 1))%float.

(** [a_transfer * np.cos(theta_transfer) - a_transfer]
    (Hohmann_rocket_angle_updated.py) *)
Definition x_transfer_updated (a c : float) : float := (a * c - a)%float.

(** The binary64 value of [np.cos(theta_transfer[1])], where
    [theta_transfer[1]] is [0x1.116ec1c696898p-7]. *)
Definition cos_theta_1 : float := 0x1.fffb6fcc176b4p-1%float.

(** The binary64 value of [np.cos(theta_transfer[250])], where
    [theta_transfer[250]] is [0x1.0b06293bef024p+1]. *)
Definition cos_theta_250 : float := (-0x1.f8a626c7ef400p-2)%float.

(** The seven binary64 values from three below to three above [c]. *)
Definition within_3_ulp (c : float) : list float :=
  [next_down (next_down (next_down c)); next_down (next_down c); next_down c;
   c;
   next_up c; next_up (next_up c); next_up (next_up (next_up c))].

(** The two forms give different binary64 values at the cosine [c]. *)
Definition forms_differ (c : float) : bool :=
  negb (eqb (x_transfer_sim a_transfer c) (x_transfer_updated a_transfer c)).

End Float64.

(** ** The rest of the two scripts: drawn orbits, axes and [init] *)




(** What [init] of the updated script hands to the plot objects: the three
    markers, the line cleared with [set_data([], [])] and the two texts
    cleared with [set_text('')], which [None] stands for. *)
Record cleared_telemetry : Type := {
  init_bodies : artists;
  init_line : list R * list R;
  init_angle_text : option R;
  init_distance_text : option R
}.

(** [init()] of Hohmann_Rocket_Sim.py:
    [rocket.set_data(x_earth[0], y_earth[0]); earth.set_data(x_earth[0],
     y_earth[0]); mars.set_data(x_mars[0], y_mars[0])]. *)
Definition init_sim_of (x_earth y_earth x_mars y_mars : ndarray)
  : result artists :=
  rx <- getitem x_earth 0 ;;
  ry <- getitem y_earth 0 ;;
  xe <- getitem x_earth 0 ;;
  ye <- getitem y_earth 0 ;;
  xm <- getitem x_mars 0 ;;
  ym <- getitem y_mars 0 ;;
  Ok {| rocket := (rx, ry); earth := (xe, ye); mars := (xm, ym) |}.

(** [init()] of Hohmann_rocket_angle_updated.py. *)
Definition init_updated_of (x_earth y_earth x_mars y_mars : ndarray)
  : result cleared_telemetry :=
  b <- init_sim_of x_earth y_earth x_mars y_mars ;;
  Ok {| init_bodies := b;
        init_line := ([], []);
        init_angle_text := None;
        init_distance_text := None |}.

Definition sim_init : result artists :=
  init_sim_of x_earth y_earth Hohmann_Rocket_Sim.x_mars
    Hohmann_Rocket_Sim.y_mars.

Definition updated_init : result cleared_telemetry :=
  init_updated_of x_earth y_earth Hohmann_rocket_angle_updated.x_mars
    Hohmann_rocket_angle_updated.y_mars.





(** The squared distance of a point from the Sun at the origin. *)
Definition norm2 (p : R * R) : R := fst p ^ 2 + snd p ^ 2.

(** * Properties *)

(** ** Lists, results and the numpy operations *)

Lemma bind_ok {A B : Type} (r : result A) (k : A -> result B) (b : B) :
  bind r k = Ok b -> exists a, r = Ok a /\ k a = Ok b.
Proof.
  destruct r as [a|e]; simpl; intros H; [exists a; auto | discriminate].
Qed.

Lemma bind_Ok {A B : Type} (a : A) (k : A -> result B) : bind (Ok a) k = k a.
Proof. reflexivity. Qed.

Lemma getitem_ok (a : ndarray) (i : nat) (x : R) :
  getitem a i = Ok x <-> nth_error a i = Some x.
Proof.
  unfold getitem. destruct (nth_error a i); split; intros H;
    try discriminate; congruence.
Qed.

Lemma getitem_in_range (a : ndarray) (i : nat) :
  (i < length a)%nat -> getitem a i = Ok (nth i a 0).
Proof.
  intros H. apply getitem_ok. now apply nth_error_nth'.
Qed.

Lemma getitem_out_of_range (a : ndarray) (i : nat) :
  (length a <= i)%nat -> getitem a i = Raise (IndexError i (length a)).
Proof.
  intros H. unfold getitem.
  now rewrite (proj2 (nth_error_None a i) H).
Qed.

Lemma length_scalar_mul c a : length (scalar_mul c a) = length a.
Proof. apply length_map. Qed.

Lemma length_add_scalar a c : length (add_scalar a c) = length a.
Proof. apply length_map. Qed.

Lemma length_sub_scalar a c : length (sub_scalar a c) = length a.
Proof. apply length_map. Qed.

Lemma length_power a n : length (power a n) = length a.
Proof. apply length_map. Qed.

Lemma length_np_cos a : length (np_cos a) = length a.
Proof. apply length_map. Qed.

Lemma length_np_sin a : length (np_sin a) = length a.
Proof. apply length_map. Qed.

Lemma length_np_sqrt a : length (np_sqrt a) = length a.
Proof. apply length_map. Qed.

Lemma length_np_linspace start stop num :
  length (np_linspace start stop num) = num.
Proof. unfold np_linspace. now rewrite length_map, length_seq. Qed.

Lemma length_zip_with f a b :
  length a = length b -> length (zip_with f a b) = length a.
Proof.
  intros H. unfold zip_with. rewrite length_map, length_combine. lia.
Qed.

Create Rewrite HintDb np_length.
#[local] Hint Rewrite length_scalar_mul length_add_scalar length_sub_scalar
  length_power length_np_cos length_np_sin length_np_sqrt length_np_linspace
  : np_length.

Lemma nth_map_in_range (f : R -> R) (a : ndarray) (i : nat) :
  (i < length a)%nat -> nth i (map f a) 0 = f (nth i a 0).
Proof.
  intros H. rewrite (nth_indep _ 0 (f 0)) by now rewrite length_map.
  apply map_nth.
Qed.

Lemma nth_zip_with (f : R -> R -> R) (a b : ndarray) (i : nat) :
  length a = length b -> (i < length a)%nat ->
  nth i (zip_with f a b) 0 = f (nth i a 0) (nth i b 0).
Proof.
  intros Hlen Hi. unfold zip_with.
  rewrite (nth_indep _ 0 (f 0 0)).
  - change (f 0 0) with ((fun p => f (fst p) (snd p)) (0, 0)).
    rewrite map_nth, combine_nth by assumption. reflexivity.
  - rewrite length_map, length_combine. lia.
Qed.

Lemma nth_np_linspace (start stop : R) (num i : nat) :
  (i < num)%nat ->
  nth i (np_linspace start stop num) 0
  = INR i * ((stop - start) / INR (num - 1)) + start.
Proof.
  intros H. unfold np_linspace.
  set (g := fun i => INR i * ((stop - start) / INR (num - 1)) + start).
  rewrite (nth_indep _ 0 (g 0%nat)) by now rewrite length_map, length_seq.
  rewrite (map_nth g), seq_nth by assumption. reflexivity.
Qed.

Lemma broadcast_same_length (f : R -> R -> R) (a b : ndarray) :
  length a = length b -> broadcast f a b = Ok (zip_with f a b).
Proof.
  intros H. unfold broadcast. now rewrite (proj2 (Nat.eqb_eq _ _) H).
Qed.

(** The shape rule: the operation succeeds exactly on compatible shapes. *)
Lemma broadcast_ok_iff (f : R -> R -> R) (a b : ndarray) :
  is_ok (broadcast f a b)
  <-> (length a = length b \/ length a = 1 \/ length b = 1)%nat.
Proof.
  unfold broadcast. destruct (Nat.eqb_spec (length a) (length b)) as [E|E].
  - simpl. tauto.
  - destruct a as [|x [|x' a]]; destruct b as [|y [|y' b]]; simpl in *;
      split; intros H; try tauto; try lia.
Qed.

(** ** [np.argmin] is a stable argmin *)

Lemma argmin_from_first_minimum (ip pre : list R) (mp : R) (min_ind : nat) :
  first_minimum pre min_ind ->
  nth_error pre min_ind = Some mp ->
  first_minimum (pre ++ ip) (argmin_from mp min_ind (length pre) ip).
Proof.
  revert pre mp min_ind.
  induction ip as [|x rest IH]; intros pre mp min_ind Hmin Hmp; simpl.
  - now rewrite app_nil_r.
  - replace (pre ++ x :: rest) with ((pre ++ [x]) ++ rest)
      by now rewrite <- app_assoc.
    replace (S (length pre)) with (length (pre ++ [x]))
      by (rewrite length_app; simpl; lia).
    destruct Hmin as (v & Hv & Hle & Hlt).
    assert (v = mp) by congruence. subst v.
    destruct (Rlt_dec x mp) as [Hx|Hx]; apply IH.
    + exists x. split; [|split].
      * rewrite nth_error_app2, Nat.sub_diag by lia. reflexivity.
      * intros j y Hj.
        destruct (Nat.lt_ge_cases j (length pre)) as [Hjl|Hjl].
        -- rewrite nth_error_app1 in Hj by assumption.
           apply Hle in Hj. lra.
        -- rewrite nth_error_app2 in Hj by assumption.
           destruct (j - length pre)%nat as [|[|n]]; simpl in Hj;
             try discriminate. injection Hj as <-. lra.
      * intros j y Hjk Hj.
        rewrite nth_error_app1 in Hj by assumption.
        apply Hle in Hj. lra.
    + rewrite nth_error_app2, Nat.sub_diag by lia. reflexivity.
    + assert (Hind : (min_ind < length pre)%nat)
        by (apply nth_error_Some; congruence).
      exists mp. split; [|split].
      * rewrite nth_error_app1 by assumption. assumption.
      * intros j y Hj.
        destruct (Nat.lt_ge_cases j (length pre)) as [Hjl|Hjl].
        -- rewrite nth_error_app1 in Hj by assumption. eauto.
        -- rewrite nth_error_app2 in Hj by assumption.
           destruct (j - length pre)%nat as [|[|n]]; simpl in Hj;
             try discriminate. injection Hj as <-. lra.
      * intros j y Hjk Hj.
        rewrite nth_error_app1 in Hj by lia. eauto.
    + assert (Hind : (min_ind < length pre)%nat)
        by (apply nth_error_Some; congruence).
      rewrite nth_error_app1 by assumption. assumption.
Qed.

Lemma np_argmin_first_minimum (a : ndarray) :
  a <> [] -> exists k, np_argmin a = Ok k /\ first_minimum a k.
Proof.
  destruct a as [|x rest]; [congruence|]. intros _.
  exists (argmin_from x 0%nat 1%nat rest). split; [reflexivity|].
  apply (argmin_from_first_minimum rest [x] x 0%nat); [|reflexivity].
  exists x. split; [reflexivity|]. split.
  - intros [|[|j]] y Hj; simpl in Hj; try discriminate.
    injection Hj as <-. lra.
  - intros j y Hj. lia.
Qed.

Lemma first_minimum_in_range (a : ndarray) (k : nat) :
  first_minimum a k -> (k < length a)%nat.
Proof.
  intros (v & Hv & _). apply nth_error_Some. congruence.
Qed.

Lemma first_minimum_unique (a : ndarray) (k k' : nat) :
  first_minimum a k -> first_minimum a k' -> k = k'.
Proof.
  intros (v & Hv & Hle & Hlt) (v' & Hv' & Hle' & Hlt').
  destruct (Nat.lt_trichotomy k k') as [H|[H|H]]; [|assumption|].
  - pose proof (Hlt' _ _ H Hv). pose proof (Hle _ _ Hv'). lra.
  - pose proof (Hlt _ _ H Hv'). pose proof (Hle' _ _ Hv). lra.
Qed.

Lemma np_argmin_empty : np_argmin [] = Raise ValueError_empty_argmin.
Proof. reflexivity. Qed.

(** ** Broadcasting and the separation series *)

Lemma broadcast_compatible (f : R -> R -> R) (a b : ndarray) :
  (length a = length b \/ length a = 1 \/ length b = 1)%nat ->
  exists c, broadcast f a b = Ok c
            /\ length c = if Nat.eqb (length a) 1 then length b else length a.
Proof.
  intros H. unfold broadcast.
  destruct (Nat.eqb_spec (length a) (length b)) as [E|E].
  - eexists. split; [reflexivity|]. rewrite length_zip_with by assumption.
    destruct (Nat.eqb_spec (length a) 1); congruence.
  - destruct a as [|x [|x' a]]; destruct b as [|y [|y' b]]; simpl in *;
      try lia; eexists; (split; [reflexivity|]); simpl;
      rewrite ?length_map; reflexivity.
Qed.

Lemma broadcast_incompatible (f : R -> R -> R) (a b : ndarray) :
  length a <> length b -> length a <> 1%nat -> length b <> 1%nat ->
  broadcast f a b = Raise (ValueError_broadcast (length a) (length b)).
Proof.
  intros H Ha Hb. unfold broadcast.
  destruct (Nat.eqb_spec (length a) (length b)) as [E|E]; [contradiction|].
  destruct a as [|x [|x' a]]; destruct b as [|y [|y' b]]; simpl in *;
    try reflexivity; lia.
Qed.

Lemma separation_compatible (tx ty mx my : ndarray) :
  length tx = length ty -> length mx = length my ->
  (length tx = length mx \/ length tx = 1 \/ length mx = 1)%nat ->
  exists d, separation tx ty mx my = Ok d
            /\ length d = if Nat.eqb (length tx) 1 then length mx else length tx.
Proof.
  intros Ht Hm H. unfold separation, np_subtract, np_add.
  destruct (broadcast_compatible Rminus tx mx H) as (dx & -> & Hdx).
  assert (H' : (length ty = length my \/ length ty = 1 \/ length my = 1)%nat)
    by (rewrite <- Ht, <- Hm; exact H).
  destruct (broadcast_compatible Rminus ty my H') as (dy & -> & Hdy).
  simpl. rewrite <- Ht, <- Hm in Hdy.
  rewrite broadcast_same_length by (rewrite !length_power; congruence).
  simpl. eexists. split; [reflexivity|].
  rewrite length_np_sqrt, length_zip_with, length_power
    by (rewrite !length_power; congruence).
  assumption.
Qed.

Lemma separation_incompatible (tx ty mx my : ndarray) :
  length tx <> length mx -> length tx <> 1%nat -> length mx <> 1%nat ->
  separation tx ty mx my
  = Raise (ValueError_broadcast (length tx) (length mx)).
Proof.
  intros H Ha Hb. unfold separation, np_subtract.
  now rewrite broadcast_incompatible.
Qed.

Lemma separation_same_length (tx ty mx my : ndarray) :
  length tx = length ty -> length mx = length my -> length tx = length mx ->
  exists d, separation tx ty mx my = Ok d
            /\ length d = length tx
            /\ forall i, (i < length tx)%nat ->
                         nth i d 0 = separation_at tx ty mx my i.
Proof.
  intros Ht Hm H. unfold separation, np_subtract, np_add.
  rewrite !broadcast_same_length by congruence. simpl.
  rewrite broadcast_same_length
    by (rewrite !length_power, !length_zip_with; congruence).
  simpl. eexists. split; [reflexivity|]. split.
  - rewrite length_np_sqrt, length_zip_with, length_power, length_zip_with;
      rewrite ?length_power, ?length_zip_with; congruence.
  - intros i Hi. unfold np_sqrt, power, separation_at.
    rewrite nth_map_in_range
      by (rewrite length_zip_with, length_map, length_zip_with;
          rewrite ?length_map, ?length_zip_with; congruence).
    rewrite nth_zip_with
      by (rewrite ?length_map, ?length_zip_with; congruence).
    rewrite !nth_map_in_range by (rewrite length_zip_with; congruence).
    rewrite !nth_zip_with by congruence.
    reflexivity.
Qed.

Lemma distances_to_mars_of_separation
    (xt yt xe ye xm ym : ndarray) (xe0 ye0 : R) :
  nth_error xe 0 = Some xe0 -> nth_error ye 0 = Some ye0 ->
  distances_to_mars_of xt yt xe ye xm ym
  = separation (add_scalar xt xe0) (add_scalar yt ye0) xm ym.
Proof.
  intros Hx Hy. unfold distances_to_mars_of, separation.
  rewrite (proj2 (getitem_ok _ _ _) Hx). simpl.
  destruct (np_subtract (add_scalar xt xe0) xm); simpl.
  - now rewrite (proj2 (getitem_ok _ _ _) Hy).
  - reflexivity.
Qed.

Lemma intercept_idx_of_closest_approach
    (xt yt xe ye xm ym : ndarray) (xe0 ye0 : R) :
  nth_error xe 0 = Some xe0 -> nth_error ye 0 = Some ye0 ->
  intercept_idx_of xt yt xe ye xm ym
  = find_closest_approach (add_scalar xt xe0) (add_scalar yt ye0) xm ym.
Proof.
  intros Hx Hy. unfold intercept_idx_of, find_closest_approach.
  now rewrite (distances_to_mars_of_separation _ _ _ _ _ _ _ _ Hx Hy).
Qed.

Lemma find_closest_approach_first_minimum (tx ty mx my : ndarray) :
  length tx = length ty -> length mx = length my -> length tx = length mx ->
  tx <> [] ->
  exists k d,
    find_closest_approach tx ty mx my = Ok k
    /\ separation tx ty mx my = Ok d
    /\ length d = length tx
    /\ (forall i, (i < length tx)%nat -> nth i d 0 = separation_at tx ty mx my i)
    /\ first_minimum d k.
Proof.
  intros Ht Hm H Hne.
  destruct (separation_same_length tx ty mx my Ht Hm H) as (d & Hd & Hlen & Hnth).
  assert (Hdne : d <> []).
  { intros ->. simpl in Hlen. destruct tx; [congruence|discriminate]. }
  destruct (np_argmin_first_minimum d Hdne) as (k & Hk & Hfm).
  exists k, d. unfold find_closest_approach. rewrite Hd. simpl. auto.
Qed.

Lemma first_minimum_nth (d : ndarray) (k : nat) :
  first_minimum d k ->
  (k < length d)%nat
  /\ (forall j, (j < length d)%nat -> nth k d 0 <= nth j d 0)
  /\ (forall j, (j < k)%nat -> nth k d 0 < nth j d 0).
Proof.
  intros Hfm. pose proof (first_minimum_in_range _ _ Hfm) as Hk.
  destruct Hfm as (v & Hv & Hle & Hlt).
  rewrite (nth_error_nth _ _ 0 Hv).
  split; [assumption|]. split.
  - intros j Hj. apply (Hle j). now apply nth_error_nth'.
  - intros j Hj. apply (Hlt j); [assumption|]. apply nth_error_nth'. lia.
Qed.

(** ** Claims about the closest-approach search *)

(** C2 (as stated, refuted).  Two series of different lengths, one of them of
    length 1, are broadcast against each other and the search returns an
    index instead of failing. *)
Lemma find_closest_approach_broadcasts_length_one :
  length [0] <> length [0; 0]
  /\ find_closest_approach [0] [0] [0; 0] [0; 0] = Ok 0%nat.
Proof.
  split; [discriminate|].
  unfold find_closest_approach, separation, np_subtract, np_add, broadcast.
  simpl. destruct (Rlt_dec _ _) as [H|H]; [|reflexivity].
  exfalso. revert H. apply Rlt_irrefl.
Qed.

(** C2 (amended).  The search validates nothing itself and knows no
    EmptySequenceError or LengthMismatchError.  For series given as coordinate
    arrays ([tx], [ty] of one length [n]; [mx], [my] of one length [m]):
    it raises numpy's ValueError whenever [n = 0] or [m = 0]; it raises
    ValueError (shapes cannot be broadcast) whenever [n <> m] and neither is
    1; and it returns an index exactly when both are non-empty and either
    [n = m] or one of them is 1. *)
Theorem find_closest_approach_failure_modes (tx ty mx my : ndarray) :
  length tx = length ty -> length mx = length my ->
  let n := length tx in
  let m := length mx in
  ((n = 0 \/ m = 0)%nat ->
     find_closest_approach tx ty mx my = Raise ValueError_empty_argmin
     \/ find_closest_approach tx ty mx my = Raise (ValueError_broadcast n m))
  /\ ((n <> m /\ n <> 1 /\ m <> 1)%nat ->
        find_closest_approach tx ty mx my = Raise (ValueError_broadcast n m))
  /\ ((exists k, find_closest_approach tx ty mx my = Ok k)
      <-> (0 < n /\ 0 < m /\ (n = m \/ n = 1 \/ m = 1))%nat)
  /\ (forall k, find_closest_approach tx ty mx my = Ok k ->
                (k < Nat.max n m)%nat).
Proof.
  intros Ht Hm n m.
  assert (Hcases :
    (n = m \/ n = 1 \/ m = 1)%nat \/ (n <> m /\ n <> 1 /\ m <> 1)%nat)
    by lia.
  assert (Hcompat : (n = m \/ n = 1 \/ m = 1)%nat ->
    exists d, separation tx ty mx my = Ok d
              /\ length d = if Nat.eqb n 1 then m else n)
    by (apply separation_compatible; assumption).
  assert (Hincompat : (n <> m /\ n <> 1 /\ m <> 1)%nat ->
    find_closest_approach tx ty mx my = Raise (ValueError_broadcast n m)).
  { intros (H1 & H2 & H3). unfold find_closest_approach.
    now rewrite separation_incompatible. }
  assert (Hlen : forall d, separation tx ty mx my = Ok d ->
    length d = (if Nat.eqb n 1 then m else n)).
  { intros d Hd. destruct Hcases as [Hc|Hc].
    - destruct (Hcompat Hc) as (d' & Hd' & Hl). congruence.
    - unfold find_closest_approach in Hincompat.
      destruct Hc as (H1 & H2 & H3).
      rewrite separation_incompatible in Hd by assumption. discriminate. }
  split; [|split; [|split]].
  - intros Hz. destruct Hcases as [Hc|Hc]; [left|right; auto].
    destruct (Hcompat Hc) as (d & Hd & Hl).
    unfold find_closest_approach. rewrite Hd. simpl.
    destruct d; [reflexivity|]. simpl in Hl.
    destruct (Nat.eqb_spec n 1); lia.
  - exact Hincompat.
  - split.
    + intros (k & Hk). destruct Hcases as [Hc|Hc].
      * destruct (Hcompat Hc) as (d & Hd & Hl).
        unfold find_closest_approach in Hk. rewrite Hd in Hk. simpl in Hk.
        destruct d; [discriminate|]. simpl in Hl.
        destruct (Nat.eqb_spec n 1); lia.
      * rewrite (Hincompat Hc) in Hk. discriminate.
    + intros (Hn & Hm' & Hc).
      destruct (Hcompat Hc) as (d & Hd & Hl).
      unfold find_closest_approach. rewrite Hd. simpl.
      destruct d; [|eexists; reflexivity]. simpl in Hl.
      destruct (Nat.eqb_spec n 1); lia.
  - intros k Hk. unfold find_closest_approach in Hk.
    destruct (separation tx ty mx my) as [d|e] eqn:Hd; [|discriminate].
    simpl in Hk. pose proof (Hlen d eq_refl) as Hl.
    assert (Hdne : d <> []) by (intros ->; discriminate).
    destruct (np_argmin_first_minimum d Hdne) as (k' & Hk' & Hfm).
    assert (k' = k) by congruence. subst k'.
    apply first_minimum_in_range in Hfm.
    destruct (Nat.eqb_spec n 1); lia.
Qed.

Lemma find_closest_approach_failure_modes_witness :
  (exists k, find_closest_approach [0; 1] [0; 0] [2; 1] [0; 0] = Ok k)
  <-> (0 < 2 /\ 0 < 2 /\ (2 = 2 \/ 2 = 1 \/ 2 = 1))%nat.
Proof.
  exact (proj1 (proj2 (proj2
    (find_closest_approach_failure_modes [0; 1] [0; 0] [2; 1] [0; 0]
       eq_refl eq_refl)))).
Defined.

(** C5.  On equal-length non-empty series the search returns the first index
    of the global minimum of the per-sample Euclidean distance: no distance
    is smaller than the one at the returned index, and every earlier index has
    a strictly larger one.  On two identical series it therefore returns 0. *)
Theorem find_closest_approach_stable_argmin (tx ty mx my : ndarray) :
  length tx = length ty -> length mx = length my -> length tx = length mx ->
  tx <> [] ->
  (exists k d,
      find_closest_approach tx ty mx my = Ok k
      /\ separation tx ty mx my = Ok d
      /\ length d = length tx
      /\ (forall i, (i < length tx)%nat ->
            nth i d 0
            = sqrt ((nth i tx 0 - nth i mx 0) ^ 2
                    + (nth i ty 0 - nth i my 0) ^ 2))
      /\ (k < length tx)%nat
      /\ (forall j, (j < length tx)%nat -> nth k d 0 <= nth j d 0)
      /\ (forall j, (j < k)%nat -> nth k d 0 < nth j d 0))
  /\ (tx = mx -> ty = my -> find_closest_approach tx ty mx my = Ok 0%nat).
Proof.
  intros Ht Hm H Hne.
  destruct (find_closest_approach_first_minimum tx ty mx my Ht Hm H Hne)
    as (k & d & Hk & Hd & Hlen & Hnth & Hfm).
  destruct (first_minimum_nth d k Hfm) as (Hkd & Hle & Hlt).
  split.
  - exists k, d. rewrite <- Hlen. repeat split; auto.
    intros i Hi. apply Hnth. congruence.
  - intros Hx Hy. rewrite Hk. f_equal.
    apply (first_minimum_unique d); [assumption|].
    assert (Hall : forall j x, nth_error d j = Some x -> x = sqrt 0).
    { intros j x Hj.
      assert (Hjl : (j < length d)%nat) by (apply nth_error_Some; congruence).
      rewrite <- (nth_error_nth _ _ 0 Hj), Hnth by congruence.
      unfold separation_at. subst mx my. f_equal. ring. }
    assert (H0 : (0 < length d)%nat) by (destruct tx; simpl in *; [congruence|lia]).
    exists (nth 0 d 0). split; [now apply nth_error_nth'|]. split.
    + intros j x Hj. rewrite (Hall _ _ Hj).
      rewrite (Hall 0%nat (nth 0 d 0)) by now apply nth_error_nth'. lra.
    + intros j x Hj. lia.
Qed.

Lemma find_closest_approach_stable_argmin_witness :
  (exists k d,
      find_closest_approach [1; 2] [0; 0] [1; 5] [0; 0] = Ok k
      /\ separation [1; 2] [0; 0] [1; 5] [0; 0] = Ok d
      /\ length d = length [1; 2]
      /\ (forall i, (i < length [1; 2])%nat ->
            nth i d 0
            = sqrt ((nth i [1; 2] 0 - nth i [1; 5] 0) ^ 2
                    + (nth i [0; 0] 0 - nth i [0; 0] 0) ^ 2))
      /\ (k < length [1; 2])%nat
      /\ (forall j, (j < length [1; 2])%nat -> nth k d 0 <= nth j d 0)
      /\ (forall j, (j < k)%nat -> nth k d 0 < nth j d 0))
  /\ ([1; 2] = [1; 5] -> [0; 0] = [0; 0] ->
      find_closest_approach [1; 2] [0; 0] [1; 5] [0; 0] = Ok 0%nat).
Proof.
  apply (find_closest_approach_stable_argmin [1; 2] [0; 0] [1; 5] [0; 0]);
    [reflexivity | reflexivity | reflexivity | discriminate].
Defined.

(** ** Frames over series of one common length *)




Section EqualLength.

Variables xt yt xe ye xm ym : ndarray.
Variable n : nat.
Hypothesis Hxt : length xt = n.
Hypothesis Hyt : length yt = n.
Hypothesis Hxe : length xe = n.
Hypothesis Hye : length ye = n.
Hypothesis Hxm : length xm = n.
Hypothesis Hym : length ym = n.
Hypothesis Hn : (0 < n)%nat.

Lemma rocket_position_in_range (k i : nat) :
  (i < n)%nat ->
  rocket_position xt yt xe ye xm ym k i = Ok (rocket_at xt yt xe ye xm ym k i).
Proof.
  intros Hi. unfold rocket_position, rocket_at.
  destruct (Nat.ltb i k).
  - rewrite (getitem_in_range xt i), (getitem_in_range xe 0),
      (getitem_in_range yt i), (getitem_in_range ye 0) by lia.
    reflexivity.
  - rewrite (getitem_in_range xm i), (getitem_in_range ym i) by lia.
    reflexivity.
Qed.

Lemma animate_sim_of_in_range (k i : nat) :
  (i < n)%nat ->
  animate_sim_of xt yt xe ye xm ym k i
  = Ok {| rocket := rocket_at xt yt xe ye xm ym k i;
          earth := (nth i xe 0, nth i ye 0);
          mars := (nth i xm 0, nth i ym 0) |}.
Proof.
  intros Hi. unfold animate_sim_of.
  rewrite rocket_position_in_range by assumption. simpl.
  rewrite (getitem_in_range xe i), (getitem_in_range ye i),
    (getitem_in_range xm i), (getitem_in_range ym i) by lia.
  reflexivity.
Qed.

Lemma animate_updated_of_in_range (k i : nat) :
  (i < n)%nat ->
  let r := rocket_at xt yt xe ye xm ym k i in
  let dx := fst r - nth i xe 0 in
  let dy := snd r - nth i ye 0 in
  animate_updated_of xt yt xe ye xm ym k i
  = Ok {| bodies := {| rocket := r;
                       earth := (nth i xe 0, nth i ye 0);
                       mars := (nth i xm 0, nth i ym 0) |};
          line := ([nth i xe 0; fst r], [nth i ye 0; snd r]);
          angle := arctan2 dy dx * (180 / PI);
          distance := sqrt (dx ^ 2 + dy ^ 2) |}.
Proof.
  intros Hi. unfold animate_updated_of.
  rewrite rocket_position_in_range by assumption. simpl.
  rewrite (getitem_in_range xe i), (getitem_in_range ye i),
    (getitem_in_range xm i), (getitem_in_range ym i) by lia.
  reflexivity.
Qed.

Lemma intercept_idx_of_first_minimum :
  exists k d,
    intercept_idx_of xt yt xe ye xm ym = Ok k
    /\ distances_to_mars_of xt yt xe ye xm ym = Ok d
    /\ length d = n
    /\ (forall i, (i < n)%nat -> nth i d 0 = distance_to_mars_at xt yt xe ye xm ym i)
    /\ first_minimum d k.
Proof.
  assert (Hx0 : nth_error xe 0 = Some (nth 0 xe 0))
    by (apply nth_error_nth'; lia).
  assert (Hy0 : nth_error ye 0 = Some (nth 0 ye 0))
    by (apply nth_error_nth'; lia).
  rewrite (intercept_idx_of_closest_approach _ _ _ _ _ _ _ _ Hx0 Hy0),
    (distances_to_mars_of_separation _ _ _ _ _ _ _ _ Hx0 Hy0).
  destruct (find_closest_approach_first_minimum
              (add_scalar xt (nth 0 xe 0)) (add_scalar yt (nth 0 ye 0)) xm ym)
    as (k & d & Hk & Hd & Hlen & Hnth & Hfm).
  - now rewrite !length_add_scalar, Hxt, Hyt.
  - now rewrite Hxm, Hym.
  - now rewrite length_add_scalar, Hxt, Hxm.
  - intros E. apply (f_equal (@length R)) in E.
    rewrite length_add_scalar in E. simpl in E. lia.
  - rewrite length_add_scalar, Hxt in Hlen, Hnth.
    exists k, d. repeat split; auto.
    intros i Hi. rewrite (Hnth i Hi). unfold separation_at, add_scalar.
    rewrite !nth_map_in_range by lia. reflexivity.
Qed.



(** The [angles] series plotted after the animation follows the translated
    transfer arc at every index, with no switch to Mars. *)
Lemma angles_of_transfer_arc :
  exists a,
    angles_of xt yt xe ye = Ok a
    /\ length a = n
    /\ forall i, (i < n)%nat ->
         nth i a 0
         = arctan2 (nth i yt 0 + nth 0 ye 0 - nth i ye 0)
             (nth i xt 0 + nth 0 xe 0 - nth i xe 0) * (180 / PI).
Proof.
  clear Hxm Hym.
  unfold angles_of, np_subtract, np_arctan2.
  rewrite (getitem_in_range ye 0), (getitem_in_range xe 0) by lia.
  rewrite bind_Ok.
  set (ty := add_scalar yt (nth 0 ye 0)).
  set (tx := add_scalar xt (nth 0 xe 0)).
  assert (Hty : length ty = n) by (unfold ty; now rewrite length_add_scalar).
  assert (Htx : length tx = n) by (unfold tx; now rewrite length_add_scalar).
  rewrite (broadcast_same_length _ ty ye), !bind_Ok by lia.
  rewrite (broadcast_same_length _ tx xe), bind_Ok by lia.
  set (dy := zip_with Rminus ty ye).
  set (dx := zip_with Rminus tx xe).
  assert (Hdy : length dy = n) by (unfold dy; rewrite length_zip_with; lia).
  assert (Hdx : length dx = n) by (unfold dx; rewrite length_zip_with; lia).
  rewrite (broadcast_same_length _ dy dx), bind_Ok by lia.
  eexists. split; [reflexivity|]. split.
  - rewrite length_map, length_zip_with; lia.
  - intros i Hi.
    rewrite nth_map_in_range by (rewrite length_zip_with; lia).
    rewrite nth_zip_with by lia.
    unfold dy, dx. rewrite !nth_zip_with by lia.
    unfold ty, tx, add_scalar. rewrite !nth_map_in_range by lia.
    reflexivity.
Qed.

(** Before the intercept index the plotted angle is the angle the frame
    shows. *)
Lemma angles_of_before_intercept (k i : nat) (a : ndarray) (f : telemetry) :
  angles_of xt yt xe ye = Ok a ->
  animate_updated_of xt yt xe ye xm ym k i = Ok f ->
  (i < n)%nat -> (i < k)%nat ->
  nth i a 0 = angle f.
Proof.
  intros Ha Hf Hi Hik.
  destruct angles_of_transfer_arc as (a' & Ha' & _ & Hnth).
  assert (a' = a) by congruence. subst a'.
  rewrite animate_updated_of_in_range in Hf by assumption.
  injection Hf as <-. cbn [angle]. rewrite (Hnth i Hi).
  unfold rocket_at. rewrite (proj2 (Nat.ltb_lt i k) Hik). reflexivity.
Qed.

End EqualLength.


(** ** The series of the two scripts *)

Lemma length_t : length t = 1000%nat.
Proof. apply length_np_linspace. Qed.

Lemma length_x_earth : length x_earth = 1000%nat.
Proof.
  unfold x_earth, theta_earth. autorewrite with np_length. apply length_t.
Qed.

Lemma length_y_earth : length y_earth = 1000%nat.
Proof.
  unfold y_earth, theta_earth. autorewrite with np_length. apply length_t.
Qed.

Lemma length_theta_transfer : length theta_transfer = 1000%nat.
Proof.
  unfold theta_transfer, transfer_theta. autorewrite with np_length.
  apply length_t.
Qed.

Lemma length_y_transfer : length y_transfer = 1000%nat.
Proof.
  unfold y_transfer, transfer_y. autorewrite with np_length.
  apply length_theta_transfer.
Qed.

Lemma length_orbit_theta T phase a : length (orbit_theta T phase a) = length a.
Proof. unfold orbit_theta. now autorewrite with np_length. Qed.

Lemma length_sim_x_mars : length Hohmann_Rocket_Sim.x_mars = 1000%nat.
Proof.
  unfold Hohmann_Rocket_Sim.x_mars, Hohmann_Rocket_Sim.theta_mars.
  autorewrite with np_length. rewrite length_orbit_theta. apply length_t.
Qed.

Lemma length_sim_y_mars : length Hohmann_Rocket_Sim.y_mars = 1000%nat.
Proof.
  unfold Hohmann_Rocket_Sim.y_mars, Hohmann_Rocket_Sim.theta_mars.
  autorewrite with np_length. rewrite length_orbit_theta. apply length_t.
Qed.

Lemma length_sim_x_transfer : length Hohmann_Rocket_Sim.x_transfer = 1000%nat.
Proof.
  unfold Hohmann_Rocket_Sim.x_transfer, transfer_x_sim.
  autorewrite with np_length. apply length_theta_transfer.
Qed.

Lemma length_updated_x_mars :
  length Hohmann_rocket_angle_updated.x_mars = 1000%nat.
Proof.
  unfold Hohmann_rocket_angle_updated.x_mars,
    Hohmann_rocket_angle_updated.theta_mars.
  autorewrite with np_length. rewrite length_orbit_theta. apply length_t.
Qed.

Lemma length_updated_y_mars :
  length Hohmann_rocket_angle_updated.y_mars = 1000%nat.
Proof.
  unfold Hohmann_rocket_angle_updated.y_mars,
    Hohmann_rocket_angle_updated.theta_mars.
  autorewrite with np_length. rewrite length_orbit_theta. apply length_t.
Qed.

Lemma length_updated_x_transfer :
  length Hohmann_rocket_angle_updated.x_transfer = 1000%nat.
Proof.
  unfold Hohmann_rocket_angle_updated.x_transfer, transfer_x_updated.
  autorewrite with np_length. apply length_theta_transfer.
Qed.

Lemma sim_intercept_idx_first_minimum :
  exists k d,
    Hohmann_Rocket_Sim.intercept_idx = Ok k
    /\ Hohmann_Rocket_Sim.distances_to_mars = Ok d
    /\ length d = 1000%nat
    /\ (forall i, (i < 1000)%nat ->
          nth i d 0
          = distance_to_mars_at Hohmann_Rocket_Sim.x_transfer y_transfer
              x_earth y_earth Hohmann_Rocket_Sim.x_mars
              Hohmann_Rocket_Sim.y_mars i)
    /\ first_minimum d k.
Proof.
  apply intercept_idx_of_first_minimum;
    auto using length_sim_x_transfer, length_y_transfer, length_x_earth,
      length_y_earth, length_sim_x_mars, length_sim_y_mars.
  lia.
Qed.

Lemma updated_intercept_idx_first_minimum :
  exists k d,
    Hohmann_rocket_angle_updated.intercept_idx = Ok k
    /\ Hohmann_rocket_angle_updated.distances_to_mars = Ok d
    /\ length d = 1000%nat
    /\ (forall i, (i < 1000)%nat ->
          nth i d 0
          = distance_to_mars_at Hohmann_rocket_angle_updated.x_transfer
              y_transfer x_earth y_earth Hohmann_rocket_angle_updated.x_mars
              Hohmann_rocket_angle_updated.y_mars i)
    /\ first_minimum d k.
Proof.
  apply intercept_idx_of_first_minimum;
    auto using length_updated_x_transfer, length_y_transfer, length_x_earth,
      length_y_earth, length_updated_x_mars, length_updated_y_mars.
  lia.
Qed.

(** ** Claims about the composed trajectory and the frames *)

(** C4.  With the transfer series taken in the shared frame (the arc moved to
    Earth's first position, as the frame callback and the distance search both
    do), the rocket's position at every index in range is the transfer
    position before the intercept index and the target position from the
    intercept index on; in particular at [k - 1], [k] and [k + 1]. *)
Theorem rocket_position_composes
    (xt yt xe ye xm ym : ndarray) (n k : nat) :
  length xt = n -> length yt = n -> length xe = n -> length ye = n ->
  length xm = n -> length ym = n -> (0 < n)%nat ->
  let tx := add_scalar xt (nth 0 xe 0) in
  let ty := add_scalar yt (nth 0 ye 0) in
  (forall i, (i < n)%nat -> (i < k)%nat ->
     rocket_position xt yt xe ye xm ym k i = Ok (nth i tx 0, nth i ty 0))
  /\ (forall i, (i < n)%nat -> (k <= i)%nat ->
        rocket_position xt yt xe ye xm ym k i = Ok (nth i xm 0, nth i ym 0))
  /\ ((0 < k)%nat -> (k - 1 < n)%nat ->
        rocket_position xt yt xe ye xm ym k (k - 1)
        = Ok (nth (k - 1) tx 0, nth (k - 1) ty 0))
  /\ ((k < n)%nat ->
        rocket_position xt yt xe ye xm ym k k = Ok (nth k xm 0, nth k ym 0))
  /\ ((S k < n)%nat ->
        rocket_position xt yt xe ye xm ym k (S k)
        = Ok (nth (S k) xm 0, nth (S k) ym 0)).
Proof.
  intros Hxt Hyt Hxe Hye Hxm Hym Hn tx ty.
  assert (Hbefore : forall i, (i < n)%nat -> (i < k)%nat ->
    rocket_position xt yt xe ye xm ym k i = Ok (nth i tx 0, nth i ty 0)).
  { intros i Hi Hik.
    rewrite (rocket_position_in_range xt yt xe ye xm ym n) by assumption.
    unfold rocket_at, tx, ty, add_scalar.
    rewrite (proj2 (Nat.ltb_lt i k) Hik).
    rewrite !nth_map_in_range by lia. reflexivity. }
  assert (Hafter : forall i, (i < n)%nat -> (k <= i)%nat ->
    rocket_position xt yt xe ye xm ym k i = Ok (nth i xm 0, nth i ym 0)).
  { intros i Hi Hik.
    rewrite (rocket_position_in_range xt yt xe ye xm ym n) by assumption.
    unfold rocket_at. now rewrite (proj2 (Nat.ltb_ge i k) Hik). }
  repeat split; auto.
  - intros Hk Hk1. apply Hbefore; lia.
Qed.

Lemma rocket_position_composes_witness :
  rocket_position [0; 1; 2] [0; 3; 4] [5; 6; 7] [0; 1; 2] [9; 8; 7] [1; 1; 1]
    1 1
  = Ok (nth 1 [9; 8; 7] 0, nth 1 [1; 1; 1] 0).
Proof.
  apply (rocket_position_composes
           [0; 1; 2] [0; 3; 4] [5; 6; 7] [0; 1; 2] [9; 8; 7] [1; 1; 1] 3 1);
    try reflexivity; lia.
Defined.

(** C10.  In both scripts the distance array has the 1000 entries of the time
    grid, so [np.argmin] returns an index between 0 and 999, and the frame
    callback raises no IndexError (nor anything else) for any frame index
    between 0 and 999. *)
Theorem intercept_idx_and_frames_in_bounds :
  length t = 1000%nat
  /\ (exists k,
         Hohmann_Rocket_Sim.intercept_idx = Ok k
         /\ (0 <= k <= 999)%nat
         /\ forall i, (0 <= i <= 999)%nat ->
                      exists f, Hohmann_Rocket_Sim.animate i = Ok f)
  /\ (exists k,
         Hohmann_rocket_angle_updated.intercept_idx = Ok k
         /\ (0 <= k <= 999)%nat
         /\ forall i, (0 <= i <= 999)%nat ->
                      exists f, Hohmann_rocket_angle_updated.animate i = Ok f).
Proof.
  split; [exact length_t|]. split.
  - destruct sim_intercept_idx_first_minimum as (k & d & Hk & _ & Hlen & _ & Hfm).
    apply first_minimum_in_range in Hfm.
    exists k. split; [assumption|]. split; [lia|].
    intros i Hi. unfold Hohmann_Rocket_Sim.animate. rewrite Hk. simpl.
    rewrite (animate_sim_of_in_range _ _ _ _ _ _ 1000)
      by (auto using length_sim_x_transfer, length_y_transfer, length_x_earth,
            length_y_earth, length_sim_x_mars, length_sim_y_mars; lia).
    eexists. reflexivity.
  - destruct updated_intercept_idx_first_minimum
      as (k & d & Hk & _ & Hlen & _ & Hfm).
    apply first_minimum_in_range in Hfm.
    exists k. split; [assumption|]. split; [lia|].
    intros i Hi. unfold Hohmann_rocket_angle_updated.animate. rewrite Hk. simpl.
    rewrite (animate_updated_of_in_range _ _ _ _ _ _ 1000)
      by (auto using length_updated_x_transfer, length_y_transfer,
            length_x_earth, length_y_earth, length_updated_x_mars,
            length_updated_y_mars; lia).
    eexists. reflexivity.
Qed.




(** ** Claims about the closed-form kinematics *)

Lemma G_pos : 0 < G.
Proof. unfold G. lra. Qed.

Lemma sqrt_64 : sqrt 64 = 8.
Proof. replace 64 with (8 * 8) by lra. apply sqrt_square. lra. Qed.

Lemma orbit_period_pos (r M : R) : 0 < r -> 0 < M -> 0 < orbit_period r M.
Proof.
  intros Hr HM. pose proof G_pos as HG. pose proof PI_RGT_0 as Hpi.
  unfold orbit_period. apply Rmult_lt_0_compat; [lra|].
  apply sqrt_lt_R0. apply Rdiv_lt_0_compat; [now apply pow_lt|].
  now apply Rmult_lt_0_compat.
Qed.

(** C6.  For every radius [r > 0] and central mass [M > 0] the period
    [2 * pi * sqrt(r^3 / (G * M))] is strictly positive, and it scales as
    [r^1.5]: the period at [4 * r] is 8 times the period at [r]. *)
Theorem orbit_period_positive_and_scaling (r M : R) :
  0 < r -> 0 < M ->
  0 < orbit_period r M
  /\ orbit_period (4 * r) M / orbit_period r M = 8.
Proof.
  intros Hr HM. pose proof G_pos as HG. pose proof PI_RGT_0 as Hpi.
  assert (HGM : 0 < G * M) by now apply Rmult_lt_0_compat.
  assert (Hq : 0 < r ^ 3 / (G * M)).
  { apply Rdiv_lt_0_compat; [|assumption]. now apply pow_lt. }
  assert (Hs : 0 < sqrt (r ^ 3 / (G * M))) by now apply sqrt_lt_R0.
  split; [now apply orbit_period_pos|]. unfold orbit_period.
  replace ((4 * r) ^ 3 / (G * M)) with (64 * (r ^ 3 / (G * M)))
      by (field; lra).
  rewrite sqrt_mult by lra. rewrite sqrt_64. field. lra.
Qed.

Lemma orbit_period_positive_and_scaling_witness :
  0 < orbit_period r_earth_orbit M_sun
  /\ orbit_period (4 * r_earth_orbit) M_sun / orbit_period r_earth_orbit M_sun
     = 8.
Proof.
  apply (orbit_period_positive_and_scaling r_earth_orbit M_sun).
  - unfold r_earth_orbit. lra.
  - unfold M_sun. lra.
Defined.

Lemma nth_orbit_theta (T phase : R) (grid : ndarray) (i : nat) :
  (i < length grid)%nat ->
  nth i (orbit_theta T phase grid) 0 = 2 * PI / T * nth i grid 0 + phase.
Proof.
  intros Hi. unfold orbit_theta, add_scalar, scalar_mul.
  rewrite !nth_map_in_range by (rewrite ?length_map; assumption).
  reflexivity.
Qed.

Lemma nth_orbit_x (r T phase : R) (grid : ndarray) (i : nat) :
  (i < length grid)%nat ->
  nth i (orbit_x r T phase grid) 0
  = r * cos (2 * PI / T * nth i grid 0 + phase).
Proof.
  intros Hi. unfold orbit_x, scalar_mul, np_cos.
  rewrite !nth_map_in_range
    by (rewrite ?length_map, ?length_orbit_theta; assumption).
  now rewrite nth_orbit_theta.
Qed.

Lemma nth_orbit_y (r T phase : R) (grid : ndarray) (i : nat) :
  (i < length grid)%nat ->
  nth i (orbit_y r T phase grid) 0
  = r * sin (2 * PI / T * nth i grid 0 + phase).
Proof.
  intros Hi. unfold orbit_y, scalar_mul, np_sin.
  rewrite !nth_map_in_range
    by (rewrite ?length_map, ?length_orbit_theta; assumption).
  now rewrite nth_orbit_theta.
Qed.

(** C7.  For every radius [r > 0], period [T > 0] and phase offset, every
    sample of the circular position series lies at distance [r] from the
    origin: [x^2 + y^2 = r^2], so the distance equals [r] (in particular
    within a relative tolerance of 1e-9).  At a sample [t = 0] with phase
    offset 0 the point is [(r, 0)]. *)
Theorem circular_positions_on_circle
    (r T phase : R) (grid : ndarray) (i : nat) :
  0 < r -> 0 < T -> (i < length grid)%nat ->
  let x := nth i (orbit_x r T phase grid) 0 in
  let y := nth i (orbit_y r T phase grid) 0 in
  x ^ 2 + y ^ 2 = r ^ 2
  /\ sqrt (x ^ 2 + y ^ 2) = r
  /\ Rabs (sqrt (x ^ 2 + y ^ 2) - r) <= 1e-9 * r
  /\ (nth i grid 0 = 0 -> phase = 0 -> x = r /\ y = 0).
Proof.
  intros Hr HT Hi x y. subst x y.
  rewrite nth_orbit_x, nth_orbit_y by assumption.
  set (theta := 2 * PI / T * nth i grid 0 + phase).
  assert (Hsq : (r * cos theta) ^ 2 + (r * sin theta) ^ 2 = r ^ 2).
  { pose proof (sin2_cos2 theta) as H. unfold Rsqr in H.
    replace ((r * cos theta) ^ 2 + (r * sin theta) ^ 2)
      with (r ^ 2 * (sin theta * sin theta + cos theta * cos theta)) by ring.
    rewrite H. ring. }
  assert (Hd : sqrt ((r * cos theta) ^ 2 + (r * sin theta) ^ 2) = r).
  { rewrite Hsq. apply sqrt_pow2. lra. }
  split; [exact Hsq|]. split; [exact Hd|]. split.
  - rewrite Hd. replace (r - r) with 0 by ring. rewrite Rabs_R0. lra.
  - intros Ht Hp. unfold theta. rewrite Ht, Hp.
    replace (2 * PI / T * 0 + 0) with 0 by ring.
    rewrite cos_0, sin_0. split; ring.
Qed.

Lemma circular_positions_on_circle_witness :
  let x := nth 0 (orbit_x 2 1 0 [0; 1]) 0 in
  let y := nth 0 (orbit_y 2 1 0 [0; 1]) 0 in
  x ^ 2 + y ^ 2 = 2 ^ 2
  /\ sqrt (x ^ 2 + y ^ 2) = 2
  /\ Rabs (sqrt (x ^ 2 + y ^ 2) - 2) <= 1e-9 * 2
  /\ (nth 0 [0; 1] 0 = 0 -> 0 = 0 -> x = 2 /\ y = 0).
Proof.
  apply (circular_positions_on_circle 2 1 0 [0; 1] 0); [lra | lra | simpl; lia].
Defined.

Lemma transfer_arc_at_zero (a M : R) (grid : ndarray) (i : nat) :
  nth_error grid i = Some 0 ->
  let theta := transfer_theta a M grid in
  nth_error (transfer_x_sim a theta) i = Some 0
  /\ nth_error (transfer_x_updated a theta) i = Some 0
  /\ nth_error (transfer_y a theta) i = Some 0.
Proof.
  intros H theta. subst theta.
  unfold transfer_x_sim, transfer_x_updated, transfer_y, transfer_theta,
    scalar_mul, sub_scalar, np_cos, np_sin.
  rewrite !nth_error_map, H. simpl.
  rewrite Rmult_0_r, cos_0, sin_0.
  repeat split; f_equal; ring.
Qed.

(** C8.  For every pair of positive radii and positive central mass, the
    transfer arc at a first time sample [t = 0] is the point [(0, 0)], in
    either script's form of the x coordinate. *)
Theorem transfer_arc_starts_at_origin
    (r_inner r_outer M : R) (grid : ndarray) :
  0 < r_inner -> 0 < r_outer -> 0 < M ->
  nth_error grid 0 = Some 0 ->
  let a := semi_major_axis r_inner r_outer in
  let theta := transfer_theta a M grid in
  nth_error (transfer_x_sim a theta) 0 = Some 0
  /\ nth_error (transfer_x_updated a theta) 0 = Some 0
  /\ nth_error (transfer_y a theta) 0 = Some 0.
Proof.
  intros _ _ _ H a theta. subst theta.
  unfold transfer_x_sim, transfer_x_updated, transfer_y, transfer_theta,
    scalar_mul, sub_scalar, np_cos, np_sin.
  rewrite !nth_error_map, H. simpl.
  (* theta(0) = sqrt(G M / a^3) * 0 = 0 *)
  rewrite Rmult_0_r, cos_0, sin_0.
  repeat split; f_equal; ring.
Qed.

Lemma transfer_arc_starts_at_origin_witness :
  let a := semi_major_axis 1 3 in
  let theta := transfer_theta a 1 [0; 1] in
  nth_error (transfer_x_sim a theta) 0 = Some 0
  /\ nth_error (transfer_x_updated a theta) 0 = Some 0
  /\ nth_error (transfer_y a theta) 0 = Some 0.
Proof.
  apply (transfer_arc_starts_at_origin 1 3 1 [0; 1]);
    [lra | lra | lra | reflexivity].
Defined.

Lemma nth_error_t_0 : nth_error t 0 = Some 0.
Proof.
  rewrite (nth_error_nth' t 0) by (rewrite length_t; lia).
  unfold t. rewrite nth_np_linspace by lia. f_equal. simpl. ring.
Qed.

(** The arcs of the two scripts start at the origin. *)
Lemma script_transfer_arcs_start_at_origin :
  nth_error Hohmann_Rocket_Sim.x_transfer 0 = Some 0
  /\ nth_error Hohmann_rocket_angle_updated.x_transfer 0 = Some 0
  /\ nth_error y_transfer 0 = Some 0.
Proof.
  exact (transfer_arc_at_zero a_transfer M_sun t 0 nth_error_t_0).
Qed.

(** C9 (as stated, refuted).  In float64 the two scripts' forms of
    [x_transfer] do not give the same value at every sample: at sample 1 of
    the scripts' grid, with [a_transfer = 188750000000.0] and the cosine
    [0x1.fffb6fcc176b4p-1], [a * (c - 1)] and [a * c - a] are different
    binary64 numbers (about -6571360.59984353 and -6571360.59985352). *)
Lemma x_transfer_forms_differ_in_float64 :
  Float64.x_transfer_sim Float64.a_transfer Float64.cos_theta_1
  <> Float64.x_transfer_updated Float64.a_transfer Float64.cos_theta_1
  /\ PrimFloat.eqb
       (Float64.x_transfer_sim Float64.a_transfer Float64.cos_theta_1)
       (Float64.x_transfer_updated Float64.a_transfer Float64.cos_theta_1)
     = false.
Proof.
  assert (E : PrimFloat.eqb
                (Float64.x_transfer_sim Float64.a_transfer Float64.cos_theta_1)
                (Float64.x_transfer_updated Float64.a_transfer
                   Float64.cos_theta_1)
              = false)
    by (vm_compute; reflexivity).
  split; [|exact E].
  intros H. rewrite H in E. vm_compute in E. discriminate.
Qed.

(** The difference at sample 1 does not hinge on the last digits of the
    cosine: the two forms differ at each of the seven binary64 values from
    three below to three above it.  They also differ at the cosine of sample
    250, and agree, for instance, one binary64 value below that one. *)
Lemma x_transfer_forms_differ_near_sample_1 :
  forallb Float64.forms_differ (Float64.within_3_ulp Float64.cos_theta_1)
  = true
  /\ Float64.forms_differ Float64.cos_theta_250 = true
  /\ Float64.forms_differ (PrimFloat.next_down Float64.cos_theta_250) = false.
Proof. repeat split; vm_compute; reflexivity. Qed.

(** C9 (amended).  Read as exact real-number expressions the two forms are
    the same number at every sample, [a * (cos(theta) - 1) = a * cos(theta)
    - a], and [y_transfer] is one and the same line in both scripts, so on
    that reading the two series coincide on the common time grid.  In float64
    the two forms are rounded differently and are not equal at every sample;
    where the cosine is 1, as at the first sample, both are exactly 0. *)
Theorem transfer_arcs_equal_as_reals :
  (forall a theta, transfer_x_sim a theta = transfer_x_updated a theta)
  /\ Hohmann_Rocket_Sim.x_transfer = Hohmann_rocket_angle_updated.x_transfer
  /\ (forall i,
        nth i Hohmann_Rocket_Sim.x_transfer 0
        = nth i Hohmann_rocket_angle_updated.x_transfer 0)
  /\ Float64.x_transfer_sim Float64.a_transfer PrimFloat.one = PrimFloat.zero
  /\ Float64.x_transfer_updated Float64.a_transfer PrimFloat.one
     = PrimFloat.zero.
Proof.
  assert (H : forall a theta, transfer_x_sim a theta = transfer_x_updated a theta).
  { intros a theta.
    unfold transfer_x_sim, transfer_x_updated, scalar_mul, sub_scalar.
    rewrite !map_map. apply map_ext. intros c. ring. }
  split; [exact H|].
  assert (E : Hohmann_Rocket_Sim.x_transfer
              = Hohmann_rocket_angle_updated.x_transfer)
    by apply H.
  split; [exact E|]. split; [intros i; now rewrite E|].
  split; vm_compute; reflexivity.
Qed.

(** ** The end-to-end scenario *)

(** *** Closed forms of the scripts' series *)

Lemma T_mars_pos : 0 < T_mars.
Proof.
  apply orbit_period_pos; [unfold r_mars_orbit | unfold M_sun]; lra.
Qed.

Lemma a_transfer_pos : 0 < a_transfer.
Proof. unfold a_transfer, semi_major_axis, r_earth_orbit, r_mars_orbit. lra. Qed.

Lemma INR_999 : INR 999 = 999.
Proof. rewrite INR_IZR_INZ. reflexivity. Qed.

Lemma nth_t (i : nat) :
  (i < 1000)%nat -> nth i t 0 = INR i * (T_mars / 999).
Proof.
  intros Hi. unfold t. rewrite nth_np_linspace by assumption.
  change (1000 - 1)%nat with 999%nat. rewrite INR_999.
  unfold Rminus. rewrite Ropp_0, !Rplus_0_r. reflexivity.
Qed.

Lemma nth_theta_transfer (i : nat) :
  (i < 1000)%nat ->
  nth i theta_transfer 0 = PI * (2 * INR i / 999 * sigma).
Proof.
  intros Hi. unfold theta_transfer, transfer_theta, scalar_mul.
  rewrite nth_map_in_range by (rewrite length_t; assumption).
  rewrite nth_t by assumption.
  pose proof G_pos as HG. pose proof a_transfer_pos as Ha.
  assert (HM : 0 < M_sun) by (unfold M_sun; lra).
  assert (Hr : 0 < r_mars_orbit) by (unfold r_mars_orbit; lra).
  assert (HGM : 0 < G * M_sun) by now apply Rmult_lt_0_compat.
  assert (Ha3 : 0 < a_transfer ^ 3) by now apply pow_lt.
  assert (Hr3 : 0 < r_mars_orbit ^ 3) by now apply pow_lt.
  unfold sigma, T_mars, orbit_period.
  replace (r_mars_orbit ^ 3 / a_transfer ^ 3)
    with (G * M_sun / a_transfer ^ 3 * (r_mars_orbit ^ 3 / (G * M_sun)))
    by (field; lra).
  rewrite sqrt_mult
    by (apply Rlt_le; apply Rdiv_lt_0_compat; assumption).
  field.
Qed.

Lemma nth_theta_earth_0 : nth 0 theta_earth 0 = 0.
Proof.
  unfold theta_earth, scalar_mul.
  rewrite nth_map_in_range by (rewrite length_t; lia).
  rewrite nth_t by lia. simpl. ring.
Qed.

Lemma nth_x_earth_0 : nth 0 x_earth 0 = r_earth_orbit.
Proof.
  unfold x_earth, scalar_mul, np_cos.
  rewrite !nth_map_in_range
    by (rewrite ?length_map; unfold theta_earth;
        rewrite ?length_scalar_mul, length_t; lia).
  rewrite nth_theta_earth_0, cos_0. ring.
Qed.

Lemma nth_y_earth_0 : nth 0 y_earth 0 = 0.
Proof.
  unfold y_earth, scalar_mul, np_sin.
  rewrite !nth_map_in_range
    by (rewrite ?length_map; unfold theta_earth;
        rewrite ?length_scalar_mul, length_t; lia).
  rewrite nth_theta_earth_0, sin_0. ring.
Qed.

Lemma nth_y_transfer (i : nat) :
  (i < 1000)%nat ->
  nth i y_transfer 0 = a_transfer * sin (nth i theta_transfer 0).
Proof.
  intros Hi. unfold y_transfer, transfer_y, scalar_mul, np_sin.
  rewrite !nth_map_in_range
    by (rewrite ?length_map, length_theta_transfer; assumption).
  reflexivity.
Qed.

Lemma nth_updated_x_transfer (i : nat) :
  (i < 1000)%nat ->
  nth i Hohmann_rocket_angle_updated.x_transfer 0
  = a_transfer * cos (nth i theta_transfer 0) - a_transfer.
Proof.
  intros Hi.
  unfold Hohmann_rocket_angle_updated.x_transfer, transfer_x_updated,
    sub_scalar, scalar_mul, np_cos.
  rewrite !nth_map_in_range
    by (rewrite ?length_map, length_theta_transfer; assumption).
  reflexivity.
Qed.

Lemma nth_sim_x_transfer (i : nat) :
  (i < 1000)%nat ->
  nth i Hohmann_Rocket_Sim.x_transfer 0
  = a_transfer * cos (nth i theta_transfer 0) - a_transfer.
Proof.
  intros Hi.
  unfold Hohmann_Rocket_Sim.x_transfer, transfer_x_sim,
    sub_scalar, scalar_mul, np_cos.
  rewrite !nth_map_in_range
    by (rewrite ?length_map, length_theta_transfer; assumption).
  ring.
Qed.

Lemma nth_updated_theta_mars (i : nat) :
  (i < 1000)%nat ->
  nth i Hohmann_rocket_angle_updated.theta_mars 0
  = PI * (2 * INR i / 999 + 44.75 / 180).
Proof.
  intros Hi. unfold Hohmann_rocket_angle_updated.theta_mars.
  rewrite nth_orbit_theta by (rewrite length_t; assumption).
  rewrite nth_t by assumption. unfold np_deg2rad.
  pose proof T_mars_pos. field. lra.
Qed.

Lemma nth_sim_theta_mars (i : nat) :
  (i < 1000)%nat ->
  nth i Hohmann_Rocket_Sim.theta_mars 0 = PI * (2 * INR i / 999) + 44.75.
Proof.
  intros Hi. unfold Hohmann_Rocket_Sim.theta_mars.
  rewrite nth_orbit_theta by (rewrite length_t; assumption).
  rewrite nth_t by assumption.
  pose proof T_mars_pos. field. lra.
Qed.

Lemma updated_distance_to_mars_at (i : nat) :
  (i < 1000)%nat ->
  distance_to_mars_at Hohmann_rocket_angle_updated.x_transfer y_transfer
    x_earth y_earth Hohmann_rocket_angle_updated.x_mars
    Hohmann_rocket_angle_updated.y_mars i
  = arc_to_mars (PI * (2 * INR i / 999 * sigma))
      (PI * (2 * INR i / 999 + 44.75 / 180)).
Proof.
  intros Hi. unfold distance_to_mars_at, arc_to_mars.
  rewrite nth_updated_x_transfer, nth_y_transfer, nth_theta_transfer,
    nth_x_earth_0, nth_y_earth_0 by assumption.
  unfold Hohmann_rocket_angle_updated.x_mars,
    Hohmann_rocket_angle_updated.y_mars, scalar_mul, np_cos, np_sin.
  rewrite !nth_map_in_range
    by (rewrite ?length_map;
        unfold Hohmann_rocket_angle_updated.theta_mars;
        rewrite length_orbit_theta, length_t; assumption).
  rewrite nth_updated_theta_mars by assumption.
  f_equal. ring.
Qed.

Lemma sim_distance_to_mars_at (i : nat) :
  (i < 1000)%nat ->
  distance_to_mars_at Hohmann_Rocket_Sim.x_transfer y_transfer
    x_earth y_earth Hohmann_Rocket_Sim.x_mars Hohmann_Rocket_Sim.y_mars i
  = arc_to_mars (PI * (2 * INR i / 999 * sigma))
      (PI * (2 * INR i / 999) + 44.75).
Proof.
  intros Hi. unfold distance_to_mars_at, arc_to_mars.
  rewrite nth_sim_x_transfer, nth_y_transfer, nth_theta_transfer,
    nth_x_earth_0, nth_y_earth_0 by assumption.
  unfold Hohmann_Rocket_Sim.x_mars, Hohmann_Rocket_Sim.y_mars,
    scalar_mul, np_cos, np_sin.
  rewrite !nth_map_in_range
    by (rewrite ?length_map; unfold Hohmann_Rocket_Sim.theta_mars;
        rewrite length_orbit_theta, length_t; assumption).
  rewrite nth_sim_theta_mars by assumption.
  f_equal. ring.
Qed.

(** *** Numeric bounds *)

Lemma PI_bounds : 3.14159 < PI < 3.14160.
Proof.
  pose proof (PI_2_3_7_ineq 2) as [Hlo Hhi].
  unfold sum_f_R0, tg_alt, PI_2_3_7_tg, Ratan_seq in Hlo, Hhi.
  simpl in Hlo, Hhi. split; lra.
Qed.

Lemma sqrt_between (x lo hi : R) :
  0 <= lo -> 0 <= hi -> lo ^ 2 <= x <= hi ^ 2 -> lo <= sqrt x <= hi.
Proof.
  intros Hlo Hhi [H1 H2]. split.
  - rewrite <- (sqrt_pow2 lo) by assumption. now apply sqrt_le_1_alt.
  - rewrite <- (sqrt_pow2 hi) by assumption. now apply sqrt_le_1_alt.
Qed.

Lemma sigma_bounds : 1.3267 <= sigma <= 1.3268.
Proof.
  unfold sigma, a_transfer, semi_major_axis, r_mars_orbit, r_earth_orbit.
  apply sqrt_between; lra.
Qed.

Lemma sin_taylor (u : R) : 0 <= u <= 4 -> u - u ^ 3 / 6 <= sin u <= u.
Proof.
  intros [H0 H4]. split.
  - pose proof (pre_sin_bound u 0 H0 H4) as [H _].
    unfold sin_approx, sum_f_R0, sin_term in H. simpl in H. lra.
  - destruct H0 as [H0|<-]; [left; now apply sin_lt_x | rewrite sin_0; lra].
Qed.

Lemma cos_taylor (u : R) :
  -2 <= u <= 2 -> 1 - u ^ 2 / 2 <= cos u <= 1 - u ^ 2 / 2 + u ^ 4 / 24.
Proof.
  intros [H0 H2]. pose proof (pre_cos_bound u 0 H0 H2) as H.
  unfold cos_approx, sum_f_R0, cos_term in H. simpl in H. lra.
Qed.

Lemma pow_between (x lo hi : R) (n : nat) :
  0 <= lo -> lo <= x <= hi -> lo ^ n <= x ^ n <= hi ^ n.
Proof.
  intros Hlo [H1 H2]. split; apply pow_incr; lra.
Qed.

Lemma sqr_bound (x b : R) : - b <= x <= b -> x ^ 2 <= b ^ 2.
Proof. intros [H1 H2]. nra. Qed.

(** The squared gap between a point at angle [u] behind the far end of the
    arc and Mars at angle [v] behind the point opposite to Earth's start,
    bounded from interval enclosures of [u] and [v]. *)
Lemma near_gap_bound (u v ulo uhi vlo vhi bx by_ : R) :
  0 <= ulo -> ulo <= u <= uhi -> uhi <= 1 ->
  0 <= vlo -> vlo <= v <= vhi -> vhi <= 1 ->
  - bx <= - a_transfer * (1 - ulo ^ 2 / 2 + uhi ^ 4 / 24) - a_transfer
          + r_earth_orbit + r_mars_orbit * (1 - vhi ^ 2 / 2) ->
  - a_transfer * (1 - uhi ^ 2 / 2) - a_transfer + r_earth_orbit
    + r_mars_orbit * (1 - vlo ^ 2 / 2 + vhi ^ 4 / 24) <= bx ->
  - by_ <= a_transfer * (ulo - uhi ^ 3 / 6) - r_mars_orbit * vhi ->
  a_transfer * uhi - r_mars_orbit * (vlo - vhi ^ 3 / 6) <= by_ ->
  (- a_transfer * cos u - a_transfer + r_earth_orbit + r_mars_orbit * cos v) ^ 2
  + (a_transfer * sin u - r_mars_orbit * sin v) ^ 2
  <= bx ^ 2 + by_ ^ 2.
Proof.
  intros Hulo Hu Huhi Hvlo Hv Hvhi Hx1 Hx2 Hy1 Hy2.
  pose proof a_transfer_pos as Ha.
  assert (Hr : 0 < r_mars_orbit) by (unfold r_mars_orbit; lra).
  pose proof (cos_taylor u ltac:(lra)) as [Hcu1 Hcu2].
  pose proof (cos_taylor v ltac:(lra)) as [Hcv1 Hcv2].
  pose proof (sin_taylor u ltac:(lra)) as [Hsu1 Hsu2].
  pose proof (sin_taylor v ltac:(lra)) as [Hsv1 Hsv2].
  pose proof (pow_between u ulo uhi 2 Hulo Hu) as [Hu2l Hu2h].
  pose proof (pow_between u ulo uhi 3 Hulo Hu) as [_ Hu3h].
  pose proof (pow_between u ulo uhi 4 Hulo Hu) as [_ Hu4h].
  pose proof (pow_between v vlo vhi 2 Hvlo Hv) as [Hv2l Hv2h].
  pose proof (pow_between v vlo vhi 3 Hvlo Hv) as [_ Hv3h].
  pose proof (pow_between v vlo vhi 4 Hvlo Hv) as [_ Hv4h].
  apply Rplus_le_compat; apply sqr_bound; split.
  - apply Rle_trans with (1 := Hx1).
    assert (a_transfer * cos u <= a_transfer * (1 - ulo ^ 2 / 2 + uhi ^ 4 / 24))
      by (apply Rmult_le_compat_l; lra).
    assert (r_mars_orbit * (1 - vhi ^ 2 / 2) <= r_mars_orbit * cos v)
      by (apply Rmult_le_compat_l; lra).
    lra.
  - apply Rle_trans with (2 := Hx2).
    assert (a_transfer * (1 - uhi ^ 2 / 2) <= a_transfer * cos u)
      by (apply Rmult_le_compat_l; lra).
    assert (r_mars_orbit * cos v
            <= r_mars_orbit * (1 - vlo ^ 2 / 2 + vhi ^ 4 / 24))
      by (apply Rmult_le_compat_l; lra).
    lra.
  - apply Rle_trans with (1 := Hy1).
    assert (a_transfer * (ulo - uhi ^ 3 / 6) <= a_transfer * sin u)
      by (apply Rmult_le_compat_l; lra).
    assert (r_mars_orbit * sin v <= r_mars_orbit * vhi)
      by (apply Rmult_le_compat_l; lra).
    lra.
  - apply Rle_trans with (2 := Hy2).
    assert (a_transfer * sin u <= a_transfer * uhi)
      by (apply Rmult_le_compat_l; lra).
    assert (r_mars_orbit * (vlo - vhi ^ 3 / 6) <= r_mars_orbit * sin v)
      by (apply Rmult_le_compat_l; lra).
    lra.
Qed.

Lemma sqrt_lt_bound (x b : R) : 0 <= b -> 0 <= x < b ^ 2 -> sqrt x < b.
Proof.
  intros Hb Hx. rewrite <- (sqrt_pow2 b) by assumption.
  now apply sqrt_lt_1_alt.
Qed.

Lemma sqrt_ge_bound (x b : R) : 0 <= b -> b ^ 2 <= x -> b <= sqrt x.
Proof.
  intros Hb Hx. rewrite <- (sqrt_pow2 b) at 1 by assumption.
  now apply sqrt_le_1_alt.
Qed.

(** At the first sample the rocket sits on Earth's orbit, at least the
    difference of the two radii away from Mars. *)
Lemma arc_to_mars_at_start (theta_m : R) :
  r_mars_orbit - r_earth_orbit <= arc_to_mars 0 theta_m.
Proof.
  unfold arc_to_mars. rewrite cos_0, sin_0.
  pose proof (sin2_cos2 theta_m) as H. unfold Rsqr in H.
  pose proof (COS_bound theta_m) as [_ Hc].
  apply sqrt_ge_bound.
  - unfold r_mars_orbit, r_earth_orbit. lra.
  - unfold a_transfer, semi_major_axis, r_mars_orbit, r_earth_orbit in *.
    nra.
Qed.

(** Whenever Mars is well inside the right half plane the rocket, which never
    gets to the right of Earth's starting point, is far from it. *)
Lemma arc_to_mars_far (theta_t theta_m : R) :
  0.7 <= cos theta_m ->
  0.7 * r_mars_orbit - r_earth_orbit <= arc_to_mars theta_t theta_m.
Proof.
  intros Hm. unfold arc_to_mars.
  pose proof (COS_bound theta_t) as [_ Hc].
  pose proof a_transfer_pos as Ha.
  assert (Hx : a_transfer * cos theta_t - a_transfer + r_earth_orbit
               - r_mars_orbit * cos theta_m
               <= - (0.7 * r_mars_orbit - r_earth_orbit)).
  { assert (a_transfer * cos theta_t <= a_transfer * 1)
      by (apply Rmult_le_compat_l; lra).
    assert (r_mars_orbit * 0.7 <= r_mars_orbit * cos theta_m)
      by (apply Rmult_le_compat_l; [unfold r_mars_orbit|]; lra).
    lra. }
  assert (Hb : 0 <= 0.7 * r_mars_orbit - r_earth_orbit)
    by (unfold r_mars_orbit, r_earth_orbit; lra).
  apply sqrt_ge_bound; [assumption|].
  set (dx := a_transfer * cos theta_t - a_transfer + r_earth_orbit
             - r_mars_orbit * cos theta_m) in *.
  set (dy := a_transfer * sin theta_t - r_mars_orbit * sin theta_m).
  set (b := 0.7 * r_mars_orbit - r_earth_orbit) in *.
  nra.
Qed.

Lemma sqrt_2_le : sqrt 2 <= 1.42.
Proof. apply (sqrt_between 2 1.41 1.42); lra. Qed.

Lemma cos_ge_07 (x : R) : 0 <= x <= PI / 4 -> 0.7 <= cos x.
Proof.
  intros [H0 H4]. pose proof PI_bounds as [Hp1 Hp2].
  apply Rle_trans with (cos (PI / 4)).
  - rewrite cos_PI4. pose proof sqrt_2_le as Hs.
    assert (Hs0 : 0 < sqrt 2) by (apply sqrt_lt_R0; lra).
    apply Rmult_le_reg_r with (sqrt 2); [assumption|].
    unfold Rdiv. rewrite Rmult_assoc, Rinv_l by lra. lra.
  - apply cos_decr_1; lra.
Qed.

(** *** The three samples that decide the scenario: updated script *)

Lemma INR_388 : INR 388 = 388.
Proof. rewrite INR_IZR_INZ. reflexivity. Qed.

Lemma updated_gap_at_0 :
  1e9 < arc_to_mars (PI * (2 * INR 0 / 999 * sigma))
          (PI * (2 * INR 0 / 999 + 44.75 / 180)).
Proof.
  simpl INR. replace (PI * (2 * 0 / 999 * sigma)) with 0 by field.
  apply Rlt_le_trans with (2 := arc_to_mars_at_start _).
  unfold r_mars_orbit, r_earth_orbit. lra.
Qed.

Lemma updated_gap_at_999 :
  1e9 < arc_to_mars (PI * (2 * INR 999 / 999 * sigma))
          (PI * (2 * INR 999 / 999 + 44.75 / 180)).
Proof.
  rewrite INR_999.
  apply Rlt_le_trans with (0.7 * r_mars_orbit - r_earth_orbit);
    [unfold r_mars_orbit, r_earth_orbit; lra|].
  apply arc_to_mars_far.
  replace (PI * (2 * 999 / 999 + 44.75 / 180))
    with (PI * (44.75 / 180) + 2 * INR 1 * PI) by (simpl; field).
  rewrite cos_period. pose proof PI_bounds. apply cos_ge_07. lra.
Qed.

Lemma updated_gap_at_388 :
  arc_to_mars (PI * (2 * INR 388 / 999 * sigma))
    (PI * (2 * INR 388 / 999 + 44.75 / 180)) < 1e9.
Proof.
  rewrite INR_388. pose proof PI_bounds as [Hp1 Hp2].
  pose proof sigma_bounds as [Hs1 Hs2].
  set (u := PI * (2 * 388 / 999 * sigma - 1)).
  set (v := PI * (2 * 388 / 999 + 44.75 / 180 - 1)).
  replace (PI * (2 * 388 / 999 * sigma)) with (u + PI) by (unfold u; ring).
  replace (PI * (2 * 388 / 999 + 44.75 / 180)) with (v + PI)
    by (unfold v; ring).
  unfold arc_to_mars. rewrite !neg_cos, !neg_sin.
  assert (Hu : 0.0959 <= u <= 0.0963) by (unfold u; split; nra).
  assert (Hv : 0.0797 <= v <= 0.0798) by (unfold v; split; nra).
  apply sqrt_lt_bound; [lra|]. split.
  - apply Rplus_le_le_0_compat; apply pow2_ge_0.
  - apply Rle_lt_trans with (2e8 ^ 2 + 2e8 ^ 2); [|lra].
    replace (a_transfer * - cos u - a_transfer + r_earth_orbit
             - r_mars_orbit * - cos v)
      with (- a_transfer * cos u - a_transfer + r_earth_orbit
            + r_mars_orbit * cos v) by ring.
    replace ((a_transfer * - sin u - r_mars_orbit * - sin v) ^ 2)
      with ((a_transfer * sin u - r_mars_orbit * sin v) ^ 2) by ring.
    apply (near_gap_bound u v 0.0959 0.0963 0.0797 0.0798); try lra;
      unfold a_transfer, semi_major_axis, r_earth_orbit, r_mars_orbit; lra.
Qed.

(** *** The three samples that decide the scenario: first script *)

Lemma INR_367 : INR 367 = 367.
Proof. rewrite INR_IZR_INZ. reflexivity. Qed.

Lemma sim_gap_at_0 :
  1e9 < arc_to_mars (PI * (2 * INR 0 / 999 * sigma))
          (PI * (2 * INR 0 / 999) + 44.75).
Proof.
  simpl INR. replace (PI * (2 * 0 / 999 * sigma)) with 0 by field.
  apply Rlt_le_trans with (2 := arc_to_mars_at_start _).
  unfold r_mars_orbit, r_earth_orbit. lra.
Qed.

Lemma sim_gap_at_999 :
  1e9 < arc_to_mars (PI * (2 * INR 999 / 999 * sigma))
          (PI * (2 * INR 999 / 999) + 44.75).
Proof.
  rewrite INR_999.
  apply Rlt_le_trans with (0.7 * r_mars_orbit - r_earth_orbit);
    [unfold r_mars_orbit, r_earth_orbit; lra|].
  apply arc_to_mars_far.
  replace (PI * (2 * 999 / 999) + 44.75)
    with (44.75 - 14 * PI + 2 * INR 8 * PI) by (simpl; field).
  rewrite cos_period. pose proof PI_bounds. apply cos_ge_07. lra.
Qed.

Lemma sim_gap_at_367 :
  arc_to_mars (PI * (2 * INR 367 / 999 * sigma))
    (PI * (2 * INR 367 / 999) + 44.75) < 1e9.
Proof.
  rewrite INR_367. pose proof PI_bounds as [Hp1 Hp2].
  pose proof sigma_bounds as [Hs1 Hs2].
  set (u := PI * (1 - 2 * 367 / 999 * sigma)).
  set (v := PI * (15 - 2 * 367 / 999) - 44.75).
  replace (PI * (2 * 367 / 999 * sigma)) with (- u + PI) by (unfold u; ring).
  replace (PI * (2 * 367 / 999) + 44.75) with (- v + PI + 2 * INR 7 * PI)
    by (unfold v; simpl; ring).
  unfold arc_to_mars.
  rewrite cos_period, sin_period, !neg_cos, !neg_sin, !cos_neg, !sin_neg.
  assert (Hu : 0.0790 <= u <= 0.0793) by (unfold u; split; nra).
  assert (Hv : 0.0656 <= v <= 0.0658) by (unfold v; split; nra).
  apply sqrt_lt_bound; [lra|]. split.
  - apply Rplus_le_le_0_compat; apply pow2_ge_0.
  - apply Rle_lt_trans with (2e8 ^ 2 + 2e8 ^ 2); [|lra].
    replace (a_transfer * - cos u - a_transfer + r_earth_orbit
             - r_mars_orbit * - cos v)
      with (- a_transfer * cos u - a_transfer + r_earth_orbit
            + r_mars_orbit * cos v) by ring.
    replace ((a_transfer * - - sin u - r_mars_orbit * - - sin v) ^ 2)
      with ((a_transfer * sin u - r_mars_orbit * sin v) ^ 2) by ring.
    apply (near_gap_bound u v 0.0790 0.0793 0.0656 0.0658); try lra;
      unfold a_transfer, semi_major_axis, r_earth_orbit, r_mars_orbit; lra.
Qed.

(** *** The intercept index lies strictly inside the grid *)

Lemma interior_minimum (d : ndarray) (k m : nat) (b : R) :
  first_minimum d k -> length d = 1000%nat ->
  (m < 1000)%nat -> nth m d 0 < b ->
  b < nth 0 d 0 -> b < nth 999 d 0 ->
  (0 < k < 999)%nat /\ nth k d 0 < b.
Proof.
  intros Hfm Hlen Hm Hmb H0 H999.
  destruct (first_minimum_nth d k Hfm) as (Hk & Hle & _).
  pose proof (Hle m ltac:(lia)) as Hkm.
  assert (Hkb : nth k d 0 < b) by lra.
  split; [|assumption].
  destruct (Nat.eq_dec k 0) as [->|Hk0]; [lra|].
  destruct (Nat.eq_dec k 999) as [->|Hk9]; [lra|].
  lia.
Qed.


(** ** The plotted angle series against the frame read-out *)

Lemma arctan2_right (y x : R) : 0 < x -> - (PI / 2) < arctan2 y x < PI / 2.
Proof.
  intros Hx. unfold arctan2. destruct (Rlt_dec 0 x); [|contradiction].
  pose proof (atan_bound (y / x)). lra.
Qed.

Lemma arctan2_left (y x : R) :
  x < 0 -> arctan2 y x < - (PI / 2) \/ PI / 2 < arctan2 y x.
Proof.
  intros Hx. unfold arctan2.
  destruct (Rlt_dec 0 x); [lra|]. destruct (Rlt_dec x 0); [|contradiction].
  pose proof (atan_bound (y / x)). pose proof PI_RGT_0.
  destruct (Rle_dec 0 y); [right|left]; lra.
Qed.

Lemma nth_theta_earth (i : nat) :
  (i < 1000)%nat -> nth i theta_earth 0 = PI * (2 * INR i / 999 * rho).
Proof.
  intros Hi. unfold theta_earth, scalar_mul.
  rewrite nth_map_in_range by (rewrite length_t; assumption).
  rewrite nth_t by assumption.
  pose proof G_pos as HG.
  assert (HM : 0 < M_sun) by (unfold M_sun; lra).
  assert (Hm : 0 < r_mars_orbit) by (unfold r_mars_orbit; lra).
  assert (He : 0 < r_earth_orbit) by (unfold r_earth_orbit; lra).
  assert (HGM : 0 < G * M_sun) by now apply Rmult_lt_0_compat.
  assert (He3 : 0 < r_earth_orbit ^ 3) by now apply pow_lt.
  assert (Hq : 0 < r_earth_orbit ^ 3 / (G * M_sun))
    by now apply Rdiv_lt_0_compat.
  assert (Hs : 0 < sqrt (r_earth_orbit ^ 3 / (G * M_sun)))
    by now apply sqrt_lt_R0.
  unfold rho, T_mars, T_earth, orbit_period.
  replace (r_mars_orbit ^ 3 / r_earth_orbit ^ 3)
    with (r_mars_orbit ^ 3 / (G * M_sun) / (r_earth_orbit ^ 3 / (G * M_sun)))
    by (field; lra).
  rewrite (sqrt_div_alt (r_mars_orbit ^ 3 / (G * M_sun))
             (r_earth_orbit ^ 3 / (G * M_sun))) by assumption.
  pose proof PI_RGT_0. field. lra.
Qed.

Lemma nth_x_earth (i : nat) :
  (i < 1000)%nat ->
  nth i x_earth 0 = r_earth_orbit * cos (nth i theta_earth 0).
Proof.
  intros Hi. unfold x_earth, scalar_mul, np_cos.
  rewrite !nth_map_in_range
    by (rewrite ?length_map; unfold theta_earth;
        rewrite ?length_scalar_mul, length_t; assumption).
  reflexivity.
Qed.

Lemma rho_bounds : 1.88 <= rho <= 1.89.
Proof.
  unfold rho, r_mars_orbit, r_earth_orbit. apply sqrt_between; lra.
Qed.

(** At the last sample Earth is in the fourth quadrant of its orbit. *)
Lemma cos_theta_earth_999 : 0 <= cos (PI * (2 * INR 999 / 999 * rho)).
Proof.
  rewrite INR_999. pose proof rho_bounds. pose proof PI_bounds.
  replace (PI * (2 * 999 / 999 * rho))
    with (2 * PI * (rho - 1) + 2 * INR 1 * PI) by (simpl; field).
  rewrite cos_period. apply cos_ge_0_3PI2; nra.
Qed.

(** At the last sample the transfer arc, left running, is well past its top. *)
Lemma cos_theta_transfer_999 : cos (PI * (2 * INR 999 / 999 * sigma)) <= - 0.4.
Proof.
  rewrite INR_999. pose proof sigma_bounds. pose proof PI_bounds.
  set (w := PI * (2 * sigma - 2.5)).
  replace (PI * (2 * 999 / 999 * sigma))
    with (PI / 2 + w + 2 * INR 1 * PI)
    by (unfold w; replace (INR 1) with 1 by reflexivity; lra).
  rewrite cos_period. pose proof (sin_cos w) as Hsc.
  assert (Hw : 0.4819 <= w <= 0.4826) by (unfold w; split; nra).
  pose proof (sin_taylor w ltac:(lra)) as [Hs _].
  pose proof (pow_between w 0.4819 0.4826 3 ltac:(lra) Hw) as [_ Hw3].
  lra.
Qed.

(** The [angles] series is not the angle of the composed trajectory: at the
    last sample, where the frame callback has the rocket on Mars, the plotted
    value is still the bearing of the transfer arc and differs from the angle
    the frame shows. *)
Lemma plotted_angle_differs_at_last_sample :
  exists a f,
    Hohmann_rocket_angle_updated.angles = Ok a
    /\ Hohmann_rocket_angle_updated.animate 999 = Ok f
    /\ nth 999 a 0 <> angle f.
Proof.
  pose proof length_updated_x_transfer as Hxt.
  pose proof length_y_transfer as Hyt.
  pose proof length_x_earth as Hxe.
  pose proof length_y_earth as Hye.
  pose proof length_updated_x_mars as Hxm.
  pose proof length_updated_y_mars as Hym.
  assert (Hn : (0 < 1000)%nat) by lia.
  assert (H999 : (999 < 1000)%nat) by lia.
  destruct (angles_of_transfer_arc _ _ _ _ 1000%nat Hxt Hyt Hxe Hye Hn)
    as (a & Ha & _ & Hnth).
  destruct updated_intercept_idx_first_minimum as (k & d & Hk & _ & Hlen & _ & Hfm).
  apply first_minimum_in_range in Hfm.
  pose proof (animate_updated_of_in_range _ _ _ _ _ _ 1000%nat
                Hxt Hyt Hxe Hye Hxm Hym Hn k 999%nat H999) as Hf.
  cbv zeta in Hf.
  match type of Hf with _ = Ok ?v => exists a, v end.
  split; [exact Ha|]. split.
  { unfold Hohmann_rocket_angle_updated.animate. rewrite Hk, bind_Ok.
    exact Hf. }
  cbn [angle]. rewrite (Hnth 999%nat H999).
  unfold rocket_at. rewrite (proj2 (Nat.ltb_ge 999 k)) by lia.
  cbn [fst snd].
  rewrite nth_updated_x_transfer, nth_x_earth_0, nth_x_earth,
    nth_theta_transfer, nth_theta_earth by lia.
  unfold Hohmann_rocket_angle_updated.x_mars at 1. unfold scalar_mul, np_cos.
  rewrite !nth_map_in_range
    by (rewrite ?length_map;
        unfold Hohmann_rocket_angle_updated.theta_mars;
        rewrite length_orbit_theta, length_t; lia).
  rewrite nth_updated_theta_mars by lia.
  pose proof cos_theta_earth_999 as He.
  pose proof cos_theta_transfer_999 as Ht.
  pose proof (COS_bound (PI * (2 * INR 999 / 999 * rho))) as [_ He1].
  assert (Hm : 0.7 <= cos (PI * (2 * INR 999 / 999 + 44.75 / 180))).
  { rewrite INR_999.
    replace (PI * (2 * 999 / 999 + 44.75 / 180))
      with (PI * (44.75 / 180) + 2 * INR 1 * PI) by (simpl; field).
    rewrite cos_period. pose proof PI_bounds. apply cos_ge_07. lra. }
  pose proof a_transfer_pos as Hapos.
  set (ce := cos (PI * (2 * INR 999 / 999 * rho))) in *.
  set (ct := cos (PI * (2 * INR 999 / 999 * sigma))) in *.
  set (cm := cos (PI * (2 * INR 999 / 999 + 44.75 / 180))) in *.
  assert (Hleft : a_transfer * ct - a_transfer + r_earth_orbit
                  - r_earth_orbit * ce < 0).
  { assert (a_transfer * ct <= a_transfer * - 0.4)
      by (apply Rmult_le_compat_l; lra).
    assert (0 <= r_earth_orbit * ce)
      by (apply Rmult_le_pos; [unfold r_earth_orbit|]; lra).
    unfold a_transfer, semi_major_axis, r_earth_orbit, r_mars_orbit in *.
    lra. }
  assert (Hright : 0 < r_mars_orbit * cm - r_earth_orbit * ce).
  { assert (r_mars_orbit * 0.7 <= r_mars_orbit * cm)
      by (apply Rmult_le_compat_l; [unfold r_mars_orbit|]; lra).
    assert (r_earth_orbit * ce <= r_earth_orbit * 1)
      by (apply Rmult_le_compat_l; [unfold r_earth_orbit|]; lra).
    unfold r_earth_orbit, r_mars_orbit in *. lra. }
  match goal with
  | |- arctan2 ?y1 _ * _ <> arctan2 ?y2 _ * _ =>
      pose proof (arctan2_left y1 _ Hleft) as Hl;
      pose proof (arctan2_right y2 _ Hright) as Hr
  end.
  intros E. apply Rmult_eq_reg_r in E.
  - rewrite E in Hl. lra.
  - pose proof PI_RGT_0. apply Rgt_not_eq. apply Rdiv_lt_0_compat; lra.
Qed.

(** * Further properties of the scripts *)

(** ** The time grid *)



(** ** Kepler's third law *)



(** ** The transfer arc *)




(** A point of the translated arc, by the cosine and sine of its angle, is
    never closer to the Sun than the inner orbit nor farther than the outer. *)
Lemma annulus_bound (r_in r_out c s : R) :
  0 < r_in -> r_in <= r_out -> s * s + c * c = 1 ->
  let a := (r_in + r_out) / 2 in
  (a * c - a + r_in - (r_in - a)) ^ 2 + (a * s) ^ 2 = a ^ 2
  /\ r_in ^ 2 <= (a * c - a + r_in) ^ 2 + (a * s) ^ 2 <= r_out ^ 2.
Proof.
  intros Hin Hout Hcs a.
  assert (Hc : -1 <= c <= 1) by (split; nra).
  assert (Ha : 0 < a) by (unfold a; lra).
  set (d := a - r_in).
  assert (Hd : 0 <= d) by (unfold d, a; lra).
  assert (Hsum : (a * c - a + r_in) ^ 2 + (a * s) ^ 2
                 = a ^ 2 + d ^ 2 - 2 * (a * d) * c).
  { unfold d. replace ((a * c - a + r_in) ^ 2 + (a * s) ^ 2)
      with (a ^ 2 * (s * s + c * c) - a ^ 2 * (c * c)
            + (a * c - a + r_in) ^ 2) by ring.
    rewrite Hcs. ring. }
  split.
  - replace ((a * c - a + r_in - (r_in - a)) ^ 2 + (a * s) ^ 2)
      with (a ^ 2 * (s * s + c * c)) by ring.
    rewrite Hcs. ring.
  - rewrite Hsum.
    assert (Had : 0 <= a * d) by (apply Rmult_le_pos; lra).
    replace (r_in ^ 2) with (a ^ 2 + d ^ 2 - 2 * (a * d) * 1)
      by (unfold d; ring).
    replace (r_out ^ 2) with (a ^ 2 + d ^ 2 - 2 * (a * d) * (-1))
      by (unfold d, a; field).
    split; nra.
Qed.



(** ** The frame callbacks on arbitrary series *)

Lemma arctan2_range (y x : R) : - PI < arctan2 y x <= PI.
Proof.
  pose proof PI_RGT_0 as Hpi. pose proof (atan_bound (y / x)) as Hb.
  unfold arctan2.
  destruct (Rlt_dec 0 x) as [Hx|Hx]; [lra|].
  destruct (Rlt_dec x 0) as [Hx'|Hx'].
  - assert (Hinv : / x < 0) by now apply Rinv_lt_0_compat.
    destruct (Rle_dec 0 y) as [Hy|Hy].
    + assert (Hq : y / x <= 0) by (unfold Rdiv; nra).
      assert (atan (y / x) <= 0).
      { destruct Hq as [Hq|Hq]; [|rewrite Hq, atan_0; lra].
        apply Rlt_le. rewrite <- atan_0. now apply atan_increasing. }
      lra.
    + assert (Hq : 0 < y / x) by (unfold Rdiv; nra).
      assert (0 < atan (y / x))
        by (rewrite <- atan_0; now apply atan_increasing).
      lra.
  - destruct (Rlt_dec 0 y); [lra|]. destruct (Rlt_dec y 0); lra.
Qed.

(** X10.  Whenever the updated script's frame callback returns, the angle it
    shows lies between -180 and 180 degrees, both ends included, and the
    distance it shows is not negative. *)
Theorem animate_angle_range
    (xt yt xe ye xm ym : ndarray) (k i : nat) (f : telemetry) :
  animate_updated_of xt yt xe ye xm ym k i = Ok f ->
  - 180 <= angle f <= 180 /\ 0 <= distance f.
Proof.
  unfold animate_updated_of.
  destruct (rocket_position xt yt xe ye xm ym k i) as [r|e];
    [|discriminate].
  rewrite bind_Ok.
  destruct (getitem xe i) as [xe_i|e]; [|discriminate].
  destruct (getitem ye i) as [ye_i|e]; [|discriminate].
  destruct (getitem xm i) as [xm_i|e]; [|discriminate].
  destruct (getitem ym i) as [ym_i|e]; [|discriminate].
  rewrite !bind_Ok. intros H. injection H as <-. cbn [angle distance].
  pose proof (arctan2_range (snd r - ye_i) (fst r - xe_i)) as [H1 H2].
  pose proof PI_RGT_0 as Hpi.
  assert (Hk : 0 < 180 / PI) by (apply Rdiv_lt_0_compat; lra).
  assert (E : PI * (180 / PI) = 180) by (field; lra).
  split; [|apply sqrt_pos].
  set (c := 180 / PI) in *.
  set (A := arctan2 (snd r - ye_i) (fst r - xe_i)) in *.
  assert (0 < (A + PI) * c) by (apply Rmult_lt_0_compat; lra).
  assert (0 <= (PI - A) * c) by (apply Rmult_le_pos; lra).
  lra.
Qed.

Lemma animate_angle_range_witness :
  exists f,
    animate_updated_of [0; 1] [0; 2] [5; 6] [0; 1] [9; 8] [1; 1] 1 1 = Ok f
    /\ - 180 <= angle f <= 180 /\ 0 <= distance f.
Proof.
  eexists. split; [reflexivity|].
  apply (animate_angle_range [0; 1] [0; 2] [5; 6] [0; 1] [9; 8] [1; 1] 1 1).
  reflexivity.
Defined.

(** X11.  With all six series of one length [n], either script's frame
    callback returns for every frame index below [n] and raises IndexError
    (index [i] out of bounds for size [n]) for every index from [n] on,
    whatever the intercept index. *)
Theorem animate_index_error
    (xt yt xe ye xm ym : ndarray) (n k i : nat) :
  length xt = n -> length yt = n -> length xe = n -> length ye = n ->
  length xm = n -> length ym = n ->
  ((i < n)%nat ->
     (exists a, animate_sim_of xt yt xe ye xm ym k i = Ok a)
     /\ (exists f, animate_updated_of xt yt xe ye xm ym k i = Ok f))
  /\ ((n <= i)%nat ->
        animate_sim_of xt yt xe ye xm ym k i = Raise (IndexError i n)
        /\ animate_updated_of xt yt xe ye xm ym k i = Raise (IndexError i n)).
Proof.
  intros Hxt Hyt Hxe Hye Hxm Hym. split.
  - intros Hi. assert (Hn : (0 < n)%nat) by lia. split.
    + rewrite (animate_sim_of_in_range xt yt xe ye xm ym n) by assumption.
      eexists. reflexivity.
    + pose proof (animate_updated_of_in_range xt yt xe ye xm ym n
                    Hxt Hyt Hxe Hye Hxm Hym Hn k i Hi) as Hf.
      cbv zeta in Hf. rewrite Hf. eexists. reflexivity.
  - intros Hi.
    assert (Hr : rocket_position xt yt xe ye xm ym k i
                 = Raise (IndexError i n)).
    { unfold rocket_position. destruct (Nat.ltb i k).
      - rewrite (getitem_out_of_range xt i) by lia. now rewrite Hxt.
      - rewrite (getitem_out_of_range xm i) by lia. now rewrite Hxm. }
    unfold animate_sim_of, animate_updated_of. rewrite Hr. split; reflexivity.
Qed.

Lemma animate_index_error_witness :
  ((1 < 2)%nat ->
     (exists a, animate_sim_of [0; 1] [0; 2] [5; 6] [0; 1] [9; 8] [1; 1] 1 1
                = Ok a)
     /\ (exists f,
           animate_updated_of [0; 1] [0; 2] [5; 6] [0; 1] [9; 8] [1; 1] 1 1
           = Ok f))
  /\ ((2 <= 1)%nat ->
        animate_sim_of [0; 1] [0; 2] [5; 6] [0; 1] [9; 8] [1; 1] 1 1
        = Raise (IndexError 1 2)
        /\ animate_updated_of [0; 1] [0; 2] [5; 6] [0; 1] [9; 8] [1; 1] 1 1
           = Raise (IndexError 1 2)).
Proof.
  apply (animate_index_error [0; 1] [0; 2] [5; 6] [0; 1] [9; 8] [1; 1] 2 1 1);
    reflexivity.
Defined.

(** X12.  The updated script's frame callback extends the first script's: on
    the same series and intercept index it places rocket, Earth and Mars
    exactly as the first script does, draws the line from Earth to the rocket
    and shows the length of that line as the distance; and it raises exactly
    the exception the first script's callback raises. *)
Theorem animate_updated_extends_sim
    (xt yt xe ye xm ym : ndarray) (k i : nat) :
  match animate_sim_of xt yt xe ye xm ym k i with
  | Ok b =>
      exists f,
        animate_updated_of xt yt xe ye xm ym k i = Ok f
        /\ bodies f = b
        /\ line f = ([fst (earth b); fst (rocket b)],
                     [snd (earth b); snd (rocket b)])
        /\ distance f
           = sqrt ((fst (rocket b) - fst (earth b)) ^ 2
                   + (snd (rocket b) - snd (earth b)) ^ 2)
  | Raise e => animate_updated_of xt yt xe ye xm ym k i = Raise e
  end.
Proof.
  unfold animate_sim_of, animate_updated_of.
  destruct (rocket_position xt yt xe ye xm ym k i) as [r|e];
    [|reflexivity].
  rewrite !bind_Ok.
  destruct (getitem xe i) as [xe_i|e]; [|reflexivity].
  destruct (getitem ye i) as [ye_i|e]; [|reflexivity].
  destruct (getitem xm i) as [xm_i|e]; [|reflexivity].
  destruct (getitem ym i) as [ym_i|e]; [|reflexivity].
  rewrite !bind_Ok. eexists. split; [reflexivity|].
  cbn [bodies line distance rocket earth fst snd]. auto.
Qed.

(** ** The frames of the two scripts *)

Lemma updated_intercept_idx_interior :
  exists k,
    Hohmann_rocket_angle_updated.intercept_idx = Ok k /\ (0 < k < 999)%nat.
Proof.
  destruct updated_intercept_idx_first_minimum
    as (k & d & Hk & Hd & Hlen & Hnth & Hfm).
  exists k. split; [assumption|].
  apply (interior_minimum d k 388 1e9 Hfm Hlen); [lia | | |];
    rewrite Hnth, updated_distance_to_mars_at by lia.
  - exact updated_gap_at_388.
  - exact updated_gap_at_0.
  - exact updated_gap_at_999.
Qed.

Lemma sim_intercept_idx_interior :
  exists k, Hohmann_Rocket_Sim.intercept_idx = Ok k /\ (0 < k < 999)%nat.
Proof.
  destruct sim_intercept_idx_first_minimum
    as (k & d & Hk & Hd & Hlen & Hnth & Hfm).
  exists k. split; [assumption|].
  apply (interior_minimum d k 367 1e9 Hfm Hlen); [lia | | |];
    rewrite Hnth, sim_distance_to_mars_at by lia.
  - exact sim_gap_at_367.
  - exact sim_gap_at_0.
  - exact sim_gap_at_999.
Qed.

(** Frame [i] of the updated script, component by component. *)
Lemma updated_frame (i : nat) :
  (i < 1000)%nat ->
  exists k f,
    Hohmann_rocket_angle_updated.intercept_idx = Ok k
    /\ (0 < k < 999)%nat
    /\ Hohmann_rocket_angle_updated.animate i = Ok f
    /\ rocket (bodies f)
       = rocket_at Hohmann_rocket_angle_updated.x_transfer y_transfer
           x_earth y_earth Hohmann_rocket_angle_updated.x_mars
           Hohmann_rocket_angle_updated.y_mars k i
    /\ earth (bodies f) = (nth i x_earth 0, nth i y_earth 0)
    /\ mars (bodies f)
       = (nth i Hohmann_rocket_angle_updated.x_mars 0,
          nth i Hohmann_rocket_angle_updated.y_mars 0)
    /\ angle f
       = arctan2 (snd (rocket (bodies f)) - nth i y_earth 0)
           (fst (rocket (bodies f)) - nth i x_earth 0) * (180 / PI)
    /\ distance f
       = sqrt ((fst (rocket (bodies f)) - nth i x_earth 0) ^ 2
               + (snd (rocket (bodies f)) - nth i y_earth 0) ^ 2).
Proof.
  intros Hi. destruct updated_intercept_idx_interior as (k & Hk & Hint).
  assert (Hn : (0 < 1000)%nat) by lia.
  pose proof (animate_updated_of_in_range _ _ _ _ _ _ 1000%nat
                length_updated_x_transfer length_y_transfer length_x_earth
                length_y_earth length_updated_x_mars length_updated_y_mars
                Hn k i Hi) as Hf.
  cbv zeta in Hf.
  match type of Hf with _ = Ok ?v => exists k, v end.
  split; [exact Hk|]. split; [exact Hint|]. split.
  { unfold Hohmann_rocket_angle_updated.animate. rewrite Hk, bind_Ok.
    exact Hf. }
  cbn [bodies rocket earth mars angle distance]. repeat split; reflexivity.
Qed.

(** Frame [i] of the first script. *)
Lemma sim_frame (i : nat) :
  (i < 1000)%nat ->
  exists k a,
    Hohmann_Rocket_Sim.intercept_idx = Ok k
    /\ (0 < k < 999)%nat
    /\ Hohmann_Rocket_Sim.animate i = Ok a
    /\ rocket a
       = rocket_at Hohmann_Rocket_Sim.x_transfer y_transfer
           x_earth y_earth Hohmann_Rocket_Sim.x_mars
           Hohmann_Rocket_Sim.y_mars k i
    /\ earth a = (nth i x_earth 0, nth i y_earth 0)
    /\ mars a
       = (nth i Hohmann_Rocket_Sim.x_mars 0,
          nth i Hohmann_Rocket_Sim.y_mars 0).
Proof.
  intros Hi. destruct sim_intercept_idx_interior as (k & Hk & Hint).
  assert (Hn : (0 < 1000)%nat) by lia.
  pose proof (animate_sim_of_in_range _ _ _ _ _ _ 1000%nat
                length_sim_x_transfer length_y_transfer length_x_earth
                length_y_earth length_sim_x_mars length_sim_y_mars
                Hn k i Hi) as Hf.
  match type of Hf with _ = Ok ?v => exists k, v end.
  split; [exact Hk|]. split; [exact Hint|]. split.
  { unfold Hohmann_Rocket_Sim.animate. rewrite Hk, bind_Ok. exact Hf. }
  cbn [rocket earth mars]. repeat split; reflexivity.
Qed.

Lemma nth_y_earth (i : nat) :
  (i < 1000)%nat ->
  nth i y_earth 0 = r_earth_orbit * sin (nth i theta_earth 0).
Proof.
  intros Hi. unfold y_earth, scalar_mul, np_sin.
  rewrite !nth_map_in_range
    by (rewrite ?length_map; unfold theta_earth;
        rewrite ?length_scalar_mul, length_t; assumption).
  reflexivity.
Qed.

Lemma norm2_polar (r theta : R) : norm2 (r * cos theta, r * sin theta) = r ^ 2.
Proof.
  unfold norm2. cbn [fst snd].
  pose proof (sin2_cos2 theta) as H. unfold Rsqr in H.
  replace ((r * cos theta) ^ 2 + (r * sin theta) ^ 2)
    with (r ^ 2 * (sin theta * sin theta + cos theta * cos theta)) by ring.
  rewrite H. ring.
Qed.

Lemma earth_norm2 (i : nat) :
  (i < 1000)%nat ->
  norm2 (nth i x_earth 0, nth i y_earth 0) = r_earth_orbit ^ 2.
Proof.
  intros Hi. rewrite nth_x_earth, nth_y_earth by assumption.
  apply norm2_polar.
Qed.

Lemma nth_scaled_cos (r : R) (theta : ndarray) (i : nat) :
  (i < length theta)%nat ->
  nth i (scalar_mul r (np_cos theta)) 0 = r * cos (nth i theta 0).
Proof.
  intros Hi. unfold scalar_mul, np_cos.
  rewrite !nth_map_in_range by (rewrite ?length_map; assumption).
  reflexivity.
Qed.

Lemma nth_scaled_sin (r : R) (theta : ndarray) (i : nat) :
  (i < length theta)%nat ->
  nth i (scalar_mul r (np_sin theta)) 0 = r * sin (nth i theta 0).
Proof.
  intros Hi. unfold scalar_mul, np_sin.
  rewrite !nth_map_in_range by (rewrite ?length_map; assumption).
  reflexivity.
Qed.

Lemma updated_mars_norm2 (i : nat) :
  (i < 1000)%nat ->
  norm2 (nth i Hohmann_rocket_angle_updated.x_mars 0,
         nth i Hohmann_rocket_angle_updated.y_mars 0)
  = r_mars_orbit ^ 2.
Proof.
  intros Hi.
  unfold Hohmann_rocket_angle_updated.x_mars,
    Hohmann_rocket_angle_updated.y_mars.
  rewrite nth_scaled_cos, nth_scaled_sin
    by (unfold Hohmann_rocket_angle_updated.theta_mars;
        rewrite length_orbit_theta, length_t; assumption).
  apply norm2_polar.
Qed.


Lemma script_arc_norm2 (c s : R) :
  s * s + c * c = 1 ->
  r_earth_orbit ^ 2
  <= norm2 (a_transfer * c - a_transfer + r_earth_orbit, a_transfer * s + 0)
  <= r_mars_orbit ^ 2.
Proof.
  intros Hcs. unfold norm2. cbn [fst snd]. rewrite Rplus_0_r.
  apply (annulus_bound r_earth_orbit r_mars_orbit c s);
    [unfold r_earth_orbit | unfold r_earth_orbit, r_mars_orbit | assumption];
    lra.
Qed.

Lemma updated_rocket_norm2 (k i : nat) :
  (i < 1000)%nat ->
  r_earth_orbit ^ 2
  <= norm2 (rocket_at Hohmann_rocket_angle_updated.x_transfer y_transfer
              x_earth y_earth Hohmann_rocket_angle_updated.x_mars
              Hohmann_rocket_angle_updated.y_mars k i)
  <= r_mars_orbit ^ 2.
Proof.
  intros Hi. unfold rocket_at. destruct (Nat.ltb i k).
  - rewrite nth_updated_x_transfer, nth_y_transfer, nth_x_earth_0,
      nth_y_earth_0 by assumption.
    apply script_arc_norm2.
    pose proof (sin2_cos2 (nth i theta_transfer 0)) as H. exact H.
  - rewrite updated_mars_norm2 by assumption.
    unfold r_earth_orbit, r_mars_orbit. lra.
Qed.






(** The scalar product of two points is bounded by the product of bounds on
    their distances from the origin. *)
Lemma dot_bound (p q : R * R) (a b : R) :
  0 <= a -> 0 <= b -> norm2 p <= a ^ 2 -> norm2 q <= b ^ 2 ->
  - (a * b) <= fst p * fst q + snd p * snd q <= a * b.
Proof.
  destruct p as [px py], q as [qx qy]. unfold norm2. cbn [fst snd].
  intros Ha Hb Hp Hq.
  set (d := px * qx + py * qy).
  assert (Hcs : d ^ 2 <= (px ^ 2 + py ^ 2) * (qx ^ 2 + qy ^ 2)).
  { unfold d. assert (0 <= (px * qy - py * qx) ^ 2) by apply pow2_ge_0. nra. }
  assert (Hpq : (px ^ 2 + py ^ 2) * (qx ^ 2 + qy ^ 2) <= a ^ 2 * b ^ 2).
  { apply Rmult_le_compat; try assumption;
      apply Rplus_le_le_0_compat; apply pow2_ge_0. }
  assert (Hab : 0 <= a * b) by now apply Rmult_le_pos.
  assert (Hd : d ^ 2 <= (a * b) ^ 2) by (rewrite Rpow_mult_distr; lra).
  split; nra.
Qed.

Lemma distance_upper (p q : R * R) (a b : R) :
  0 <= a -> 0 <= b -> norm2 p <= a ^ 2 -> norm2 q <= b ^ 2 ->
  sqrt ((fst p - fst q) ^ 2 + (snd p - snd q) ^ 2) <= a + b.
Proof.
  intros Ha Hb Hp Hq. pose proof (dot_bound p q a b Ha Hb Hp Hq) as [Hd _].
  destruct p as [px py], q as [qx qy]. unfold norm2 in *. cbn [fst snd] in *.
  rewrite <- (sqrt_pow2 (a + b)) by lra.
  apply sqrt_le_1_alt. nra.
Qed.

Lemma distance_lower (p q : R * R) (a b : R) :
  0 <= b -> b <= a -> norm2 p = a ^ 2 -> norm2 q = b ^ 2 ->
  a - b <= sqrt ((fst p - fst q) ^ 2 + (snd p - snd q) ^ 2).
Proof.
  intros Hb Hab Hp Hq.
  pose proof (dot_bound p q a b ltac:(lra) Hb ltac:(lra) ltac:(lra))
    as [_ Hd].
  destruct p as [px py], q as [qx qy]. unfold norm2 in *. cbn [fst snd] in *.
  apply sqrt_ge_bound; [lra|]. nra.
Qed.

(** X8.  In every frame of the updated script the distance shown between
    rocket and Earth is at most the sum of the two orbit radii; from the
    intercept index on, where the rocket rides Mars, it is at least their
    difference. *)
Theorem telemetry_distance_bounds (i : nat) :
  (i < 1000)%nat ->
  exists k f,
    Hohmann_rocket_angle_updated.intercept_idx = Ok k
    /\ Hohmann_rocket_angle_updated.animate i = Ok f
    /\ 0 <= distance f <= r_earth_orbit + r_mars_orbit
    /\ ((k <= i)%nat ->
        rocket (bodies f) = mars (bodies f)
        /\ r_mars_orbit - r_earth_orbit <= distance f).
Proof.
  intros Hi.
  destruct (updated_frame i Hi)
    as (k & f & Hk & _ & Hf & Hr & _ & Hm & _ & Hd).
  exists k, f. split; [exact Hk|]. split; [exact Hf|].
  pose proof (updated_rocket_norm2 k i Hi) as [_ Hrn].
  pose proof (earth_norm2 i Hi) as Hen.
  assert (He0 : 0 <= r_earth_orbit) by (unfold r_earth_orbit; lra).
  assert (Hm0 : 0 <= r_mars_orbit) by (unfold r_mars_orbit; lra).
  rewrite <- Hr in Hrn.
  split; [split|].
  - rewrite Hd. apply sqrt_pos.
  - rewrite Hd.
    pose proof (distance_upper (rocket (bodies f))
                  (nth i x_earth 0, nth i y_earth 0)
                  r_mars_orbit r_earth_orbit Hm0 He0 Hrn ltac:(lra)) as H.
    cbn [fst snd] in H. lra.
  - intros Hki.
    assert (Hrm : rocket (bodies f) = mars (bodies f)).
    { rewrite Hr, Hm. unfold rocket_at.
      now rewrite (proj2 (Nat.ltb_ge i k) Hki). }
    split; [exact Hrm|]. rewrite Hd.
    assert (Hmn : norm2 (rocket (bodies f)) = r_mars_orbit ^ 2)
      by (rewrite Hrm, Hm; now apply updated_mars_norm2).
    pose proof (distance_lower (rocket (bodies f))
                  (nth i x_earth 0, nth i y_earth 0)
                  r_mars_orbit r_earth_orbit He0
                  ltac:(unfold r_earth_orbit, r_mars_orbit; lra)
                  Hmn Hen) as H.
    cbn [fst snd] in H. exact H.
Qed.

Lemma telemetry_distance_bounds_witness :
  exists k f,
    Hohmann_rocket_angle_updated.intercept_idx = Ok k
    /\ Hohmann_rocket_angle_updated.animate 999 = Ok f
    /\ 0 <= distance f <= r_earth_orbit + r_mars_orbit
    /\ ((k <= 999)%nat ->
        rocket (bodies f) = mars (bodies f)
        /\ r_mars_orbit - r_earth_orbit <= distance f).
Proof.
  apply (telemetry_distance_bounds 999). lia.
Defined.

Lemma nth_of_nth_error (a : ndarray) (i : nat) (v : R) :
  nth_error a i = Some v -> nth i a 0 = v.
Proof. intros H. now apply nth_error_nth. Qed.

Lemma arctan2_origin : arctan2 0 0 = 0.
Proof.
  unfold arctan2.
  destruct (Rlt_dec 0 0) as [H|_]; [lra|].
  destruct (Rlt_dec 0 0) as [H|_]; [lra|].
  reflexivity.
Qed.

(** X6.  The first frame of the updated script has the rocket on Earth, at
    [(r_earth_orbit, 0)]: the distance shown is 0 and the angle shown is 0
    (the angle of the zero vector). *)
Theorem first_frame_telemetry :
  exists f,
    Hohmann_rocket_angle_updated.animate 0 = Ok f
    /\ rocket (bodies f) = (r_earth_orbit, 0)
    /\ earth (bodies f) = (r_earth_orbit, 0)
    /\ distance f = 0
    /\ angle f = 0.
Proof.
  destruct (updated_frame 0 ltac:(lia))
    as (k & f & _ & Hk & Hf & Hr & He & _ & Ha & Hd).
  destruct script_transfer_arcs_start_at_origin as (_ & Hx0 & Hy0).
  apply nth_of_nth_error in Hx0. apply nth_of_nth_error in Hy0.
  assert (Hr' : rocket (bodies f) = (r_earth_orbit, 0)).
  { rewrite Hr. unfold rocket_at.
    rewrite (proj2 (Nat.ltb_lt 0 k)) by lia.
    rewrite Hx0, Hy0, nth_x_earth_0, nth_y_earth_0. f_equal; ring. }
  exists f. split; [exact Hf|]. split; [exact Hr'|].
  rewrite nth_x_earth_0, nth_y_earth_0 in He, Ha, Hd.
  rewrite Hr' in Ha, Hd. cbn [fst snd] in Ha, Hd.
  split; [exact He|]. split.
  - rewrite Hd. replace ((r_earth_orbit - r_earth_orbit) ^ 2 + (0 - 0) ^ 2)
      with 0 by ring. apply sqrt_0.
  - rewrite Ha. replace (r_earth_orbit - r_earth_orbit) with 0 by ring.
    replace (0 - 0) with 0 by ring. rewrite arctan2_origin. ring.
Qed.

(** X7.  [init] and the first frame agree: in both scripts [init] returns,
    and [animate(0)] places rocket, Earth and Mars exactly where [init] put
    them, with the rocket on Earth; the updated script's [init] leaves the
    line empty and both texts blank. *)
Theorem init_matches_first_frame :
  (exists a,
      sim_init = Ok a
      /\ Hohmann_Rocket_Sim.animate 0 = Ok a
      /\ rocket a = earth a)
  /\ (exists c f,
         updated_init = Ok c
         /\ Hohmann_rocket_angle_updated.animate 0 = Ok f
         /\ bodies f = init_bodies c
         /\ rocket (init_bodies c) = earth (init_bodies c)
         /\ init_line c = ([], [])
         /\ init_angle_text c = None
         /\ init_distance_text c = None).
Proof.
  destruct script_transfer_arcs_start_at_origin as (Hxs & Hxu & Hy0).
  apply nth_of_nth_error in Hxs. apply nth_of_nth_error in Hxu.
  apply nth_of_nth_error in Hy0.
  split.
  - destruct (sim_frame 0 ltac:(lia)) as (k & a & _ & Hk & Ha & Hr & He & Hm).
    assert (Hr' : rocket a = (nth 0 x_earth 0, nth 0 y_earth 0)).
    { rewrite Hr. unfold rocket_at. rewrite (proj2 (Nat.ltb_lt 0 k)) by lia.
      rewrite Hxs, Hy0. f_equal; ring. }
    exists a. split; [|split; [exact Ha | congruence]].
    unfold sim_init, init_sim_of.
    rewrite (getitem_in_range x_earth 0) by (rewrite length_x_earth; lia).
    rewrite (getitem_in_range y_earth 0) by (rewrite length_y_earth; lia).
    rewrite (getitem_in_range Hohmann_Rocket_Sim.x_mars 0)
      by (rewrite length_sim_x_mars; lia).
    rewrite (getitem_in_range Hohmann_Rocket_Sim.y_mars 0)
      by (rewrite length_sim_y_mars; lia).
    rewrite !bind_Ok. destruct a as [ra ea ma]. cbn [rocket earth mars] in *.
    now rewrite Hr', He, Hm.
  - destruct (updated_frame 0 ltac:(lia))
      as (k & f & _ & Hk & Hf & Hr & He & Hm & _).
    assert (Hr' : rocket (bodies f) = (nth 0 x_earth 0, nth 0 y_earth 0)).
    { rewrite Hr. unfold rocket_at. rewrite (proj2 (Nat.ltb_lt 0 k)) by lia.
      rewrite Hxu, Hy0. f_equal; ring. }
    exists {| init_bodies := bodies f; init_line := ([], []);
              init_angle_text := None; init_distance_text := None |}, f.
    cbn [init_bodies init_line init_angle_text init_distance_text].
    split; [|repeat split; [exact Hf | congruence]].
    unfold updated_init, init_updated_of, init_sim_of.
    rewrite (getitem_in_range x_earth 0) by (rewrite length_x_earth; lia).
    rewrite (getitem_in_range y_earth 0) by (rewrite length_y_earth; lia).
    rewrite (getitem_in_range Hohmann_rocket_angle_updated.x_mars 0)
      by (rewrite length_updated_x_mars; lia).
    rewrite (getitem_in_range Hohmann_rocket_angle_updated.y_mars 0)
      by (rewrite length_updated_y_mars; lia).
    rewrite !bind_Ok. destruct (bodies f) as [ra ea ma].
    cbn [rocket earth mars] in *. now rewrite Hr', He, Hm.
Qed.

Lemma updated_angles_series :
  exists a,
    Hohmann_rocket_angle_updated.angles = Ok a /\ length a = 1000%nat.
Proof.
  unfold Hohmann_rocket_angle_updated.angles.
  assert (Hn : (0 < 1000)%nat) by lia.
  destruct (angles_of_transfer_arc _ _ _ _ 1000%nat
              length_updated_x_transfer length_y_transfer length_x_earth
              length_y_earth Hn) as (a & Ha & Hlen & _).
  exists a. split; assumption.
Qed.

Lemma updated_angles_before_intercept
    (k i : nat) (a : ndarray) (f : telemetry) :
  Hohmann_rocket_angle_updated.intercept_idx = Ok k ->
  Hohmann_rocket_angle_updated.angles = Ok a ->
  Hohmann_rocket_angle_updated.animate i = Ok f ->
  (i < 1000)%nat -> (i < k)%nat ->
  nth i a 0 = angle f.
Proof.
  unfold Hohmann_rocket_angle_updated.angles,
    Hohmann_rocket_angle_updated.animate.
  intros Hk Ha Hf Hi Hik. rewrite Hk, bind_Ok in Hf.
  assert (Hn : (0 < 1000)%nat) by lia.
  exact (angles_of_before_intercept _ _ _ _ _ _ 1000%nat
           length_updated_x_transfer length_y_transfer length_x_earth
           length_y_earth length_updated_x_mars length_updated_y_mars Hn
           k i a f Ha Hf Hi Hik).
Qed.

(** X13.  The [angles] series plotted by the updated script is computed
    without error and has one entry per sample; before the intercept index
    it holds the angle the frame shows, but it keeps following the transfer
    arc afterwards: at the last sample, where the frame has the rocket on
    Mars, the plotted angle is not the angle the frame shows. *)
Theorem plotted_angles_follow_transfer_arc :
  exists k a,
    Hohmann_rocket_angle_updated.intercept_idx = Ok k
    /\ Hohmann_rocket_angle_updated.angles = Ok a
    /\ length a = 1000%nat
    /\ (forall i f, (i < k)%nat ->
          Hohmann_rocket_angle_updated.animate i = Ok f ->
          nth i a 0 = angle f)
    /\ (exists f,
          Hohmann_rocket_angle_updated.animate 999 = Ok f
          /\ nth 999 a 0 <> angle f).
Proof.
  destruct updated_intercept_idx_interior as (k & Hk & Hint).
  destruct updated_angles_series as (a & Ha & Hlen).
  exists k, a. split; [exact Hk|]. split; [exact Ha|]. split; [exact Hlen|].
  split.
  - intros i f Hik Hf.
    apply (updated_angles_before_intercept k i a f Hk Ha Hf); lia.
  - destruct plotted_angle_differs_at_last_sample as (a' & f & Ha' & Hf & Hne).
    exists f. split; [exact Hf|].
    rewrite Ha in Ha'. injection Ha' as <-. exact Hne.
Qed.


(** ** The time axis of the plots *)




(** ** One period of Mars *)

Lemma closes_after_full_turn (r : R) (theta : ndarray) (i j : nat) :
  0 <= r -> (i < length theta)%nat -> (j < length theta)%nat ->
  nth j theta 0 = nth i theta 0 + 2 * INR 1 * PI ->
  Rabs (nth j (scalar_mul r (np_cos theta)) 0
        - nth i (scalar_mul r (np_cos theta)) 0) <= 1e-9 * r
  /\ Rabs (nth j (scalar_mul r (np_sin theta)) 0
           - nth i (scalar_mul r (np_sin theta)) 0) <= 1e-9 * r.
Proof.
  intros Hr Hi Hj Hturn.
  rewrite !nth_scaled_cos, !nth_scaled_sin by assumption.
  rewrite Hturn, cos_period, sin_period.
  unfold Rminus. rewrite !Rplus_opp_r, Rabs_R0. split; lra.
Qed.

Lemma y_earth_at_last_sample : nth 999 y_earth 0 < - 0.5 * r_earth_orbit.
Proof.
  rewrite nth_y_earth, nth_theta_earth by lia. rewrite INR_999.
  pose proof rho_bounds as [Hr1 Hr2]. pose proof PI_bounds as [Hp1 Hp2].
  set (u := PI * (4 - 2 * rho)).
  replace (PI * (2 * 999 / 999 * rho)) with (- u + 2 * INR 2 * PI)
    by (unfold u; replace (INR 2) with 2 by (simpl; ring); lra).
  rewrite sin_period, sin_neg.
  assert (Hu : 0.69 <= u <= 0.76) by (unfold u; split; nra).
  pose proof (sin_taylor u ltac:(lra)) as [Hs _].
  pose proof (pow_between u 0.69 0.76 3 ltac:(lra) Hu) as [_ Hu3].
  assert (Hsin : 0.5 < sin u) by lra.
  assert (He : 0 < r_earth_orbit) by (unfold r_earth_orbit; lra).
  nra.
Qed.

(** X3.  The time grid spans exactly one period of Mars: in both scripts
    Mars's position at the last sample agrees with its position at the first
    sample to within 1e-9 of the orbit radius, so Mars ends the animation
    where it started.  Earth does not: it starts on the x axis and ends below
    it by more than half its orbit radius. *)
Theorem mars_orbit_closes :
  (Rabs (nth 999 Hohmann_Rocket_Sim.x_mars 0
         - nth 0 Hohmann_Rocket_Sim.x_mars 0) <= 1e-9 * r_mars_orbit
   /\ Rabs (nth 999 Hohmann_Rocket_Sim.y_mars 0
            - nth 0 Hohmann_Rocket_Sim.y_mars 0) <= 1e-9 * r_mars_orbit)
  /\ (Rabs (nth 999 Hohmann_rocket_angle_updated.x_mars 0
            - nth 0 Hohmann_rocket_angle_updated.x_mars 0)
      <= 1e-9 * r_mars_orbit
      /\ Rabs (nth 999 Hohmann_rocket_angle_updated.y_mars 0
               - nth 0 Hohmann_rocket_angle_updated.y_mars 0)
         <= 1e-9 * r_mars_orbit)
  /\ nth 0 y_earth 0 = 0
  /\ nth 999 y_earth 0 < - 0.5 * r_earth_orbit.
Proof.
  assert (Hr : 0 <= r_mars_orbit) by (unfold r_mars_orbit; lra).
  assert (Hls : length Hohmann_Rocket_Sim.theta_mars = 1000%nat)
    by (unfold Hohmann_Rocket_Sim.theta_mars;
        now rewrite length_orbit_theta, length_t).
  assert (Hlu : length Hohmann_rocket_angle_updated.theta_mars = 1000%nat)
    by (unfold Hohmann_rocket_angle_updated.theta_mars;
        now rewrite length_orbit_theta, length_t).
  split; [|split; [|split; [exact nth_y_earth_0 | exact y_earth_at_last_sample]]].
  - unfold Hohmann_Rocket_Sim.x_mars, Hohmann_Rocket_Sim.y_mars.
    apply closes_after_full_turn; [assumption | lia | lia |].
    rewrite !nth_sim_theta_mars by lia. rewrite INR_999.
    replace (INR 0) with 0 by reflexivity.
    replace (INR 1) with 1 by reflexivity. field.
  - unfold Hohmann_rocket_angle_updated.x_mars,
      Hohmann_rocket_angle_updated.y_mars.
    apply closes_after_full_turn; [assumption | lia | lia |].
    rewrite !nth_updated_theta_mars by lia. rewrite INR_999.
    replace (INR 0) with 0 by reflexivity.
    replace (INR 1) with 1 by reflexivity. lra.
Qed.

(** ** The far point of the transfer arc *)

Lemma INR_le_const (i n : nat) : (i <= n)%nat -> INR i <= IZR (Z.of_nat n).
Proof. intros H. rewrite <- INR_IZR_INZ. now apply le_INR. Qed.

Lemma INR_ge_const (i n : nat) : (n <= i)%nat -> IZR (Z.of_nat n) <= INR i.
Proof. intros H. rewrite <- INR_IZR_INZ. now apply le_INR. Qed.

(** X5.  In the scripts' grid the transfer arc passes its far point, where
    its angle is pi, between samples 376 and 377: the angle is strictly
    between 0 and pi at samples 1 to 376 and strictly between pi and 2 pi at
    samples 377 to 752, so [y_transfer] is positive at the former and
    negative at the latter. *)
Theorem transfer_arc_far_point_crossing :
  (forall i, (0 < i <= 376)%nat ->
     0 < nth i theta_transfer 0 < PI /\ 0 < nth i y_transfer 0)
  /\ (forall i, (377 <= i <= 752)%nat ->
        PI < nth i theta_transfer 0 < 2 * PI /\ nth i y_transfer 0 < 0).
Proof.
  pose proof sigma_bounds as [Hs1 Hs2]. pose proof PI_RGT_0 as Hpi.
  pose proof a_transfer_pos as Ha.
  split; intros i [Hi1 Hi2]; rewrite nth_y_transfer by lia;
    rewrite nth_theta_transfer by lia.
  - assert (Hlo : 1 <= INR i) by (apply (INR_ge_const i 1); lia).
    assert (Hhi : INR i <= 376) by (apply (INR_le_const i 376); lia).
    assert (He : 0 < 2 * INR i / 999 * sigma < 1) by (split; nra).
    assert (Hth : 0 < PI * (2 * INR i / 999 * sigma) < PI) by (split; nra).
    split; [exact Hth|].
    apply Rmult_lt_0_compat; [assumption|]. apply sin_gt_0; lra.
  - assert (Hlo : 377 <= INR i) by (apply (INR_ge_const i 377); lia).
    assert (Hhi : INR i <= 752) by (apply (INR_le_const i 752); lia).
    assert (He : 1 < 2 * INR i / 999 * sigma < 2) by (split; nra).
    assert (Hth : PI < PI * (2 * INR i / 999 * sigma) < 2 * PI)
      by (split; nra).
    split; [exact Hth|].
    assert (Hsin : sin (PI * (2 * INR i / 999 * sigma)) < 0)
      by (apply sin_lt_0; lra).
    nra.
Qed.
